(** * Verification of the depinject provider-descriptor extractor and of
      the internal [util] helpers (cosmos-sdk).

    The development embeds
    - [depinject/provider_desc.go]: [ExtractProviderDescriptor] and
      [doExtractProviderDescriptor];
    - [depinject/internal/util/util.go]: [OrderedMapKeys],
      [IterateMapOrdered], [StringFirstLower], [StringFirstUpper].

    Go's [reflect] package, the [maps]/[slices] helpers, the string/rune
    conversions and [unicode.ToLower]/[unicode.ToUpper] are library code;
    the parts of their behaviour the embedded functions rely on are modelled
    in the first half of each part. *)

From Stdlib Require Import ZArith Lia Bool.
From stdpp Require Import base option list strings gmap sorting.

Local Open Scope Z_scope.

(** ** Outcomes of Go computations: a normal return, or a run-time panic *)

Inductive Res (A : Type) : Type :=
| Ok (a : A)
| Panic (msg : string).
Arguments Ok {A} a.
Arguments Panic {A} msg.

Definition res_bind {A B} (r : Res A) (k : A -> Res B) : Res B :=
  match r with
  | Ok a => k a
  | Panic m => Panic m
  end.

(** ** The model of [reflect] *)

Module Reflect.

(** [reflect.Kind], split in [Func] and all the others. *)
Inductive DataKind :=
| Bool | Int | Int8 | Int16 | Int32 | Int64
| Uint | Uint8 | Uint16 | Uint32 | Uint64 | Uintptr
| Float32 | Float64 | Complex64 | Complex128
| Array | Chan | Interface | Map | Pointer | Slice | String | Struct
| UnsafePointer.

Inductive Kind :=
| Func
| Data (k : DataKind).

#[global] Instance DataKind_eq_dec : EqDecision DataKind.
Proof. solve_decision. Defined.
#[global] Instance Kind_eq_dec : EqDecision Kind.
Proof. solve_decision. Defined.

#[local] Set Warnings "-register-all".

(** [reflect.Type]: a function type carries its signature; every other type
    is identified by its kind and its name. *)
Inductive Type_ :=
| TData (k : DataKind) (name : string)
| TFunc (name : string) (ins outs : list Type_) (variadic : bool).

(** [==] on [reflect.Type]. *)
Fixpoint Type_eqb (a b : Type_) {struct a} : bool :=
  let fix all2 (xs ys : list Type_) {struct xs} : bool :=
    match xs, ys with
    | [], [] => true
    | x :: xs', y :: ys' => Type_eqb x y && all2 xs' ys'
    | _, _ => false
    end in
  match a, b with
  | TData k n, TData k' n' => bool_decide (k = k') && String.eqb n n'
  | TFunc n i o v, TFunc n' i' o' v' =>
      String.eqb n n' && all2 i i' && all2 o o' && Bool.eqb v v'
  | _, _ => false
  end.

Definition Kind_of (t : Type_) : Kind :=
  match t with
  | TData k _ => Data k
  | TFunc _ _ _ _ => Func
  end.

Definition IsVariadic (t : Type_) : Res bool :=
  match t with
  | TFunc _ _ _ v => Ok v
  | TData _ _ => Panic "reflect: IsVariadic of non-func type"
  end.

Definition NumIn (t : Type_) : Res nat :=
  match t with
  | TFunc _ ins _ _ => Ok (length ins)
  | TData _ _ => Panic "reflect: NumIn of non-func type"
  end.

Definition NumOut (t : Type_) : Res nat :=
  match t with
  | TFunc _ _ outs _ => Ok (length outs)
  | TData _ _ => Panic "reflect: NumOut of non-func type"
  end.

Definition In (t : Type_) (i : nat) : Res Type_ :=
  match t with
  | TFunc _ ins _ _ =>
      match ins !! i with
      | Some a => Ok a
      | None => Panic "reflect: Func index out of bounds"
      end
  | TData _ _ => Panic "reflect: In of non-func type"
  end.

Definition Out (t : Type_) (i : nat) : Res Type_ :=
  match t with
  | TFunc _ _ outs _ =>
      match outs !! i with
      | Some a => Ok a
      | None => Panic "reflect: Func index out of bounds"
      end
  | TData _ _ => Panic "reflect: Out of non-func type"
  end.

(** The contents of a value, as far as the extractor looks at them: the zero
    value of its type, or something else (kept by a printed form). *)
Inductive Repr :=
| Zero
| NonZero (repr : string).

(** [reflect.Value] as passed to and returned from [Value.Call]. *)
Record Value := mkValue { Type_of : Type_; Repr_of : Repr }.

Definition IsZero (v : Value) : bool :=
  match Repr_of v with
  | Zero => true
  | NonZero _ => false
  end.

End Reflect.

(** [var errType = reflect.TypeOf(( *error )(nil)).Elem()] *)
Definition errType : Reflect.Type_ := Reflect.TData Reflect.Interface "error".

(** ** The program state

    Providers are arbitrary Go functions: they read and write the state of
    the program.  The state also records every call made through
    [reflect.Value.Call], which is how "the callable was (not) invoked" is
    observed. *)

Definition Store := gmap string Z.

Record Invocation := mkInvocation { inv_pc : Z; inv_args : list Reflect.Value }.

Record World := mkWorld { invocations : list Invocation; store : Store }.

(** Computations over the program state that may panic. *)
Definition M (A : Type) : Type := World -> Res A * World.

Definition ret {A} (a : A) : M A := fun w => (Ok a, w).

Definition bind {A B} (c : M A) (k : A -> M B) : M B :=
  fun w =>
    match c w with
    | (Ok a, w') => k a w'
    | (Panic m, w') => (Panic m, w')
    end.

Definition lift {A} (r : Res A) : M A := fun w => (r, w).

Declare Scope res_scope.
Delimit Scope res_scope with res.
Notation "x ← y ; z" := (res_bind y (fun x => z))
  (at level 20, y at level 100, z at level 200, only parsing) : res_scope.

Declare Scope go_scope.
Delimit Scope go_scope with go.
Notation "x ← y ; z" := (bind y (fun x => z))
  (at level 20, y at level 100, z at level 200, only parsing) : go_scope.

(** ** Function values and values of interface type *)

(** A Go function value: the signature of its type, its code pointer, and
    what a call does.  The body gets the arguments and the store, and returns
    the contents of its results (or panics) and the new store. *)
Record FuncValue := mkFuncValue {
  fnName : string;
  fnIn : list Reflect.Type_;
  fnOut : list Reflect.Type_;
  fnVariadic : bool;
  fnPC : Z;
  fnBody : list Reflect.Value -> Store -> Res (list Reflect.Repr) * Store
}.

Definition fnType (f : FuncValue) : Reflect.Type_ :=
  Reflect.TFunc (fnName f) (fnIn f) (fnOut f) (fnVariadic f).

(** Modelled from the spec: [Location] is declared in location.go, which is
    not among the sources at hand; the spec's ProviderNode has
    [location: string]. *)
Definition Location := string.

(** The error values that occur: the three [errors.Errorf] of
    [doExtractProviderDescriptor], and errors made elsewhere (a provider's
    own error, an error of struct-argument expansion). *)
Inductive GoError :=
| ErrExpectedFunc (typ : Reflect.Type_)
    (* "expected a Func type, got %v" *)
| ErrVariadic (loc : Location)
    (* "variadic function can't be used as a provider: %s" *)
| ErrErrorNotLast (loc : Location)
    (* "output error parameter is not last parameter in function %s" *)
| ErrOther (repr : string).

Record ProviderInput := mkProviderInput {
  pi_Type : option Reflect.Type_;
  pi_Optional : bool;
  pi_startStructType : option Reflect.Type_;
  pi_structFieldName : string
}.

Record ProviderOutput := mkProviderOutput {
  po_Type : option Reflect.Type_;
  po_startStructType : option Reflect.Type_;
  po_structFieldName : string
}.

(** [Fn] is [None] for the nil func; slices are lists (a nil slice and an
    empty slice are both the empty list); an interface-typed field
    ([reflect.Type]) is [None] when nil. *)
Record ProviderDescriptor := mkProviderDescriptor {
  Inputs : list ProviderInput;
  Outputs : list ProviderOutput;
  Fn : option (list Reflect.Value -> M (list Reflect.Value * option GoError));
  Location_ : Location;
  hasError : bool
}.

(** [ProviderDescriptor{}] *)
Definition zeroProviderDescriptor : ProviderDescriptor :=
  {| Inputs := []; Outputs := []; Fn := None; Location_ := ""; hasError := false |}.

(** [ProviderInput{Type: t}] and [ProviderOutput{Type: t}]: the other fields
    are zero. *)
Definition ProviderInput_of (t : Reflect.Type_) : ProviderInput :=
  {| pi_Type := Some t; pi_Optional := false;
     pi_startStructType := None; pi_structFieldName := "" |}.

Definition ProviderOutput_of (t : Reflect.Type_) : ProviderOutput :=
  {| po_Type := Some t; po_startStructType := None; po_structFieldName := "" |}.

(** The zero [ProviderInput], which [make] fills the slice with. *)
Definition zeroProviderInput : ProviderInput :=
  {| pi_Type := None; pi_Optional := false;
     pi_startStructType := None; pi_structFieldName := "" |}.

(** A value of type [interface{}]: nil, or a dynamic type with its value. *)
Inductive Iface :=
| INil
| IFunc (f : FuncValue)
| IDescriptor (d : ProviderDescriptor)
| IData (k : Reflect.DataKind) (name : string) (r : Reflect.Repr).

Definition providerDescriptorType : Reflect.Type_ :=
  Reflect.TData Reflect.Struct "depinject.ProviderDescriptor".

(** The dynamic type; a nil interface has none. *)
Definition dynType (i : Iface) : option Reflect.Type_ :=
  match i with
  | INil => None
  | IFunc f => Some (fnType f)
  | IDescriptor _ => Some providerDescriptorType
  | IData k name _ => Some (Reflect.TData k name)
  end.

(** [reflect.ValueOf(i).Type()] panics on the zero Value, which
    [reflect.ValueOf(nil)] is. *)
Definition ValueOf_Type (i : Iface) : Res Reflect.Type_ :=
  match dynType i with
  | Some t => Ok t
  | None => Panic "reflect: call of reflect.Value.Type on zero Value"
  end.

(** [val.Pointer()], for the kinds that occur here. *)
Definition Pointer (i : Iface) : Res Z :=
  match i with
  | IFunc f => Ok (fnPC f)
  | _ => Panic "reflect: call of reflect.Value.Pointer on non-pointer Value"
  end.

(** Indexing and slicing, with Go's bounds checks. *)
Definition index {A} (l : list A) (i : Z) : Res A :=
  if (i <? 0)%Z then Panic "index out of range"
  else match l !! Z.to_nat i with
       | Some a => Ok a
       | None => Panic "index out of range"
       end.

Definition set_index {A} (l : list A) (i : nat) (a : A) : Res (list A) :=
  if decide (i < length l)%nat then Ok (<[i := a]> l)
  else Panic "index out of range".

(** [l[0:hi]] *)
Definition slice_to {A} (l : list A) (hi : Z) : Res (list A) :=
  if ((hi <? 0) || (Z.of_nat (length l) <? hi))%Z
  then Panic "slice bounds out of range"
  else Ok (take (Z.to_nat hi) l).

(** ** [depinject/provider_desc.go] *)

Section ProviderDesc.

(** [LocationFromPC] (location.go) and [expandStructArgsProvider]
    (struct_args.go) are functions of the package that are not among the
    sources at hand, and assignability is Go's own relation on types: the
    three are parameters of the development. *)
Variable LocationFromPC : Z -> Location.
Variable AssignableTo : Reflect.Type_ -> Reflect.Type_ -> bool.
Variable expandStructArgsProvider :
  ProviderDescriptor -> M (ProviderDescriptor * option GoError).

(** Every argument is assignable to the parameter at its position, and there
    are as many arguments as parameters. *)
Fixpoint argsAssignable (values : list Reflect.Value) (ins : list Reflect.Type_) : bool :=
  match values, ins with
  | [], [] => true
  | v :: values', t :: ins' =>
      AssignableTo (Reflect.Type_of v) t && argsAssignable values' ins'
  | _, _ => false
  end.

(** [val.Call(values)]: panics unless [val] is a function and the arguments
    fit its parameters; otherwise runs the function, which is recorded, and
    returns its results as Values of the declared result types. *)
Definition Call (val : Iface) (values : list Reflect.Value) : M (list Reflect.Value) :=
  fun w =>
    match val with
    | IFunc f =>
        if argsAssignable values (fnIn f) then
          let log := invocations w ++ [mkInvocation (fnPC f) values] in
          match fnBody f values (store w) with
          | (Ok rs, s') =>
              (Ok (zip_with Reflect.mkValue (fnOut f) rs), mkWorld log s')
          | (Panic m, s') => (Panic m, mkWorld log s')
          end
        else (Panic "reflect: Call using wrong arguments", w)
    | _ => (Panic "reflect: call of reflect.Value.Call on non-func Value", w)
    end.

(** [err.Interface().(error)] for a Value that is not zero. *)
Definition Interface_error (err : Reflect.Value) : Res GoError :=
  match Reflect.Repr_of err with
  | Reflect.NonZero r => Ok (ErrOther r)
  | Reflect.Zero => Panic "interface conversion: interface is nil, not error"
  end.

(** The first loop, [for i := 0; i < numIn; i++ { in[i] = ... }]; [n] is the
    number of iterations left. *)
Fixpoint inLoop (typ : Reflect.Type_) (n : nat) (i : nat) (in_ : list ProviderInput)
  : Res (list ProviderInput) :=
  match n with
  | O => Ok in_
  | S n' =>
      (t ← Reflect.In typ i;
       in' ← set_index in_ i (ProviderInput_of t);
       inLoop typ n' (S i) in')%res
  end.

(** The second loop, over the results; it leaves early, with an error, at an
    [error] result that is not the last one. *)
Fixpoint outLoop (typ : Reflect.Type_) (loc : Location) (numOut : nat)
    (n : nat) (i : nat) (errIdx : Z) (out : list ProviderOutput)
  : Res (GoError + Z * list ProviderOutput) :=
  match n with
  | O => Ok (inr (errIdx, out))
  | S n' =>
      (t ← Reflect.Out typ i;
       if Reflect.Type_eqb t errType then
         if negb (Z.of_nat i =? Z.of_nat numOut - 1) then
           Ok (inl (ErrErrorNotLast loc))
         else outLoop typ loc numOut n' (S i) (Z.of_nat i) out
       else outLoop typ loc numOut n' (S i) errIdx (out ++ [ProviderOutput_of t]))%res
  end.

Local Open Scope go_scope.

(** The closure stored in [Fn]. *)
Definition providerFn (val : Iface) (hasError : bool) (errIdx : Z)
    (values : list Reflect.Value) : M (list Reflect.Value * option GoError) :=
  res ← Call val values;
  if hasError then
    err ← lift (index res errIdx);
    if negb (Reflect.IsZero err) then
      e ← lift (Interface_error err);
      ret ([], Some e)
    else
      r ← lift (slice_to res errIdx);
      ret (r, None)
  else ret (res, None).

Definition doExtractProviderDescriptor (ctr : Iface)
  : M (ProviderDescriptor * option GoError) :=
  let val := ctr in
  typ ← lift (ValueOf_Type val);
  if negb (bool_decide (Reflect.Kind_of typ = Reflect.Func)) then
    ret (zeroProviderDescriptor, Some (ErrExpectedFunc typ))
  else
    pc ← lift (Pointer val);
    let loc := LocationFromPC pc in
    variadic ← lift (Reflect.IsVariadic typ);
    if variadic then
      ret (zeroProviderDescriptor, Some (ErrVariadic loc))
    else
      numIn ← lift (Reflect.NumIn typ);
      in_ ← lift (inLoop typ numIn 0 (replicate numIn zeroProviderInput));
      numOut ← lift (Reflect.NumOut typ);
      r ← lift (outLoop typ loc numOut numOut 0 (-1) []);
      match r with
      | inl e => ret (zeroProviderDescriptor, Some e)
      | inr (errIdx, out) =>
          let hasError := 0 <=? errIdx in
          ret ({| Inputs := in_;
                   Outputs := out;
                   Fn := Some (providerFn val hasError errIdx);
                   Location_ := loc;
                   hasError := hasError |}, None)
      end.

Definition ExtractProviderDescriptor (provider : Iface)
  : M (ProviderDescriptor * option GoError) :=
  match provider with
  | IDescriptor rctr => expandStructArgsProvider rctr
  | _ =>
      r ← doExtractProviderDescriptor provider;
      match r.2 with
      | Some err => ret (zeroProviderDescriptor, Some err)
      | None => expandStructArgsProvider r.1
      end
  end.

End ProviderDesc.

(** ** [depinject/internal/util/util.go]: ordered iteration over maps

    [K constraints.Ordered] comes with Go's [==] and [<], [V any] with its
    zero value.  A Go map is taken by its entries, in which a key that is
    [==] to itself occurs once at most; [m[k]] is the value of the entry
    whose key is [==] to [k], and the zero value when there is none, which
    is always so for a floating-point NaN.  The map is shared with the
    callback, which may write to it: the callback gets the map in its state
    and returns the map it leaves. *)

Section OrderedMaps.

Context {K V : Type} `{Inhabited V}.

Variable eqK : K -> K -> bool.
Variable ltK : K -> K -> bool.

(** [m[k]] *)
Fixpoint mapIndex (m : list (K * V)) (k : K) : V :=
  match m with
  | [] => inhabitant
  | (k', v) :: m' => if eqK k' k then v else mapIndex m' k
  end.

(** [maps.Keys(m)]: the keys, in the order in which the runtime happens to
    iterate over the map this time.  [order] stands for whatever fixes that
    order (the runtime picks it at random at each iteration). *)
Variable mapsKeys : nat -> list (K * V) -> list K.

(** [slices.Sort] sorts by [<]: [a] may stay before [b] unless [b < a].  It
    is taken as a merge sort; when [<] is a total order every sort returns
    the same slice. *)
Definition notAfter (a b : K) : Prop := ltK b a = false.

Definition notAfter_dec : RelDecision notAfter :=
  fun a b => decide (ltK b a = false).

Definition slicesSort (keys : list K) : list K :=
  @merge_sort K notAfter notAfter_dec keys.

Definition OrderedMapKeys (order : nat) (m : list (K * V)) : list K :=
  let keys := mapsKeys order m in
  slicesSort keys.

(** State and error type of the callback. *)
Context {S E : Type}.

(** [for _, k := range keys { if err := forEach(k, m[k]); err != nil { return err } }; return nil],
    where [m[k]] is read from the map as the calls before have left it. *)
Fixpoint rangeKeys (keys : list K)
    (forEach : K -> V -> list (K * V) * S -> option E * (list (K * V) * S))
    (st : list (K * V) * S) : option E * (list (K * V) * S) :=
  match keys with
  | [] => (None, st)
  | k :: keys' =>
      match forEach k (mapIndex st.1 k) st with
      | (Some err, st') => (Some err, st')
      | (None, st') => rangeKeys keys' forEach st'
      end
  end.

Definition IterateMapOrdered (order : nat) (m : list (K * V))
    (forEach : K -> V -> list (K * V) * S -> option E * (list (K * V) * S))
    (s : S) : option E * (list (K * V) * S) :=
  let keys := OrderedMapKeys order m in
  rangeKeys keys forEach (m, s).

End OrderedMaps.

(** A callback made to record each of its calls: the arguments, what it
    returned, and the map as it was when the call was made. *)
Record CallRecord (K V E : Type) := mkCallRecord {
  call_key : K; call_value : V; call_result : option E; call_map : list (K * V)
}.
Arguments mkCallRecord {K V E}.
Arguments call_key {K V E}.
Arguments call_value {K V E}.
Arguments call_result {K V E}.
Arguments call_map {K V E}.

Definition recording {K V S E : Type}
    (forEach : K -> V -> list (K * V) * S -> option E * (list (K * V) * S))
  : K -> V -> list (K * V) * (S * list (CallRecord K V E))
    -> option E * (list (K * V) * (S * list (CallRecord K V E))) :=
  fun k v st =>
    match forEach k v (st.1, st.2.1) with
    | (r, (m', s')) => (r, (m', (s', st.2.2 ++ [mkCallRecord k v r st.1])))
    end.

(** ** [depinject/internal/util/util.go]: first letter of a string

    A Go string is a sequence of bytes; a rune is a code point, an [int32].
    The conversions [[]rune(s)] and [string(runes)] are UTF-8 decoding and
    encoding as Go defines them: a byte that starts no well-formed sequence
    decodes to [RuneError] and is skipped alone, and a rune that is no
    Unicode scalar value is encoded as [RuneError]. *)

Module utf8.

Definition RuneError : Z := 0xFFFD.
Definition MaxRune : Z := 0x10FFFF.
Definition surrogateMin : Z := 0xD800.
Definition surrogateMax : Z := 0xDFFF.

Definition ValidRune (r : Z) : bool :=
  ((0 <=? r) && (r <? surrogateMin)) || ((surrogateMax <? r) && (r <=? MaxRune)).

(** Size of the sequence that the first byte announces, and the range the
    second byte must then lie in; size 0 for a byte that starts nothing. *)
Definition first (p0 : Z) : Z * Z * Z :=
  if (p0 <? 0xC2) || (0xF4 <? p0) then (0, 0, 0)
  else if p0 <? 0xE0 then (2, 0x80, 0xBF)
  else if p0 =? 0xE0 then (3, 0xA0, 0xBF)
  else if p0 =? 0xED then (3, 0x80, 0x9F)
  else if p0 <? 0xF0 then (3, 0x80, 0xBF)
  else if p0 =? 0xF0 then (4, 0x90, 0xBF)
  else if p0 =? 0xF4 then (4, 0x80, 0x8F)
  else (4, 0x80, 0xBF).

(** A continuation byte. *)
Definition cont (b : Z) : bool := (0x80 <=? b) && (b <=? 0xBF).

(** The first rune of [s] and the number of bytes it takes. *)
Definition DecodeRune (s : list Z) : Z * nat :=
  match s with
  | [] => (RuneError, 0%nat)
  | p0 :: t0 =>
      if p0 <? 0x80 then (p0, 1%nat)
      else
        match first p0 with
        | (sz, lo, hi) =>
            if sz =? 0 then (RuneError, 1%nat)
            else
              match t0 with
              | [] => (RuneError, 1%nat)
              | b1 :: t1 =>
                  if (b1 <? lo) || (hi <? b1) then (RuneError, 1%nat)
                  else if sz =? 2 then
                    ((p0 mod 32) * 64 + b1 mod 64, 2%nat)
                  else
                    match t1 with
                    | [] => (RuneError, 1%nat)
                    | b2 :: t2 =>
                        if negb (cont b2) then (RuneError, 1%nat)
                        else if sz =? 3 then
                          ((p0 mod 16) * 4096 + (b1 mod 64) * 64 + b2 mod 64, 3%nat)
                        else
                          match t2 with
                          | [] => (RuneError, 1%nat)
                          | b3 :: _ =>
                              if negb (cont b3) then (RuneError, 1%nat)
                              else
                                ((p0 mod 8) * 262144 + (b1 mod 64) * 4096
                                 + (b2 mod 64) * 64 + b3 mod 64, 4%nat)
                          end
                    end
              end
        end
  end.

(** The bytes of one rune. *)
Definition EncodeRune (r : Z) : list Z :=
  if (0 <=? r) && (r <=? 0x7F) then [r]
  else if (0 <=? r) && (r <=? 0x7FF) then [0xC0 + r / 64; 0x80 + r mod 64]
  else if negb (ValidRune r) then [0xEF; 0xBF; 0xBD]
  else if r <=? 0xFFFF then
    [0xE0 + r / 4096; 0x80 + (r / 64) mod 64; 0x80 + r mod 64]
  else
    [0xF0 + r / 262144; 0x80 + (r / 4096) mod 64; 0x80 + (r / 64) mod 64;
     0x80 + r mod 64].

End utf8.

(** [[]rune(s)]: decode rune after rune; [n] bounds the number of runes, and
    a string has at most as many runes as bytes. *)
Fixpoint decodeRunes (n : nat) (s : list Z) : list Z :=
  match n with
  | O => []
  | S n' =>
      match s with
      | [] => []
      | _ :: _ =>
          match utf8.DecodeRune s with
          | (r, size) => r :: decodeRunes n' (drop size s)
          end
      end
  end.

Definition runes_of_string (s : list Z) : list Z := decodeRunes (length s) s.

(** [string(runes)] *)
Definition string_of_runes (runes : list Z) : list Z :=
  concat (map utf8.EncodeRune runes).

(** The bytes of a Go string. *)
Definition isString (s : list Z) : Prop := Forall (fun b => 0 <= b < 256) s.

Module unicode.

Definition MaxASCII : Z := 0x7F.
Definition UpperCase : Z := 0.
Definition LowerCase : Z := 1.

Section Case.

(** [unicode.To(_case, r)], the lookup in the table [CaseRanges] of the Go
    standard library. *)
Variable To : Z -> Z -> Z.

Definition ToLower (r : Z) : Z :=
  if r <=? MaxASCII then
    if (65 <=? r) && (r <=? 90) then r + (97 - 65) else r
  else To LowerCase r.

Definition ToUpper (r : Z) : Z :=
  if r <=? MaxASCII then
    if (97 <=? r) && (r <=? 122) then r - (97 - 65) else r
  else To UpperCase r.

End Case.

End unicode.

Section FirstLetter.

Variable To : Z -> Z -> Z.

Definition StringFirstLower (s : list Z) : Res (list Z) :=
  if (length s =? 0)%nat then Ok s
  else
    let runes := runes_of_string s in
    (r0 ← index runes 0;
     runes' ← set_index runes 0 (unicode.ToLower To r0);
     Ok (string_of_runes runes'))%res.

Definition StringFirstUpper (s : list Z) : Res (list Z) :=
  if (length s =? 0)%nat then Ok s
  else
    let runes := runes_of_string s in
    (r0 ← index runes 0;
     runes' ← set_index runes 0 (unicode.ToUpper To r0);
     Ok (string_of_runes runes'))%res.

End FirstLetter.

(** The bytes of a string literal. *)
Definition bytes_of (s : string) : list Z :=
  map (fun a => Z.of_N (Ascii.N_of_ascii a)) (String.list_ascii_of_string s).

(** ** [depinject/provider_desc.go]: generated code for the outputs

    [container], [varRef], [expr] and [fieldRef] are declared in files of the
    package that are not among the sources at hand.  A container is taken as
    an abstract state, [createVar] and [emit] as parameters, as is
    [reflect.Type.Name]; an [expr] is a variable or a field of an [expr],
    which is how [codegenOutputs] builds them. *)

#[local] Set Warnings "-register-all".

Inductive expr (varRef : Type) : Type :=
| ExprVar (v : varRef)
| FieldRef (e : option (expr varRef)) (fieldName : string).
Arguments ExprVar {varRef} v.
Arguments FieldRef {varRef} e fieldName.

Section Codegen.

Context {Container varRef : Type}.

Variable To : Z -> Z -> Z.
Variable createVar : list Z -> Container -> varRef * Container.
Variable emit : varRef -> list Z.
Variable TypeName : Reflect.Type_ -> list Z.

(** [t.Name()] for a [reflect.Type] that may be nil. *)
Definition Name (t : option Reflect.Type_) : Res (list Z) :=
  match t with
  | Some t' => Ok (TypeName t')
  | None => Panic "invalid memory address or nil pointer dereference"
  end.

(** [v := ctr.createVar(fmt.Sprintf("%s%s", util.StringFirstLower(name), suffix))] *)
Definition newVar (name suffix : list Z) (ctr : Container) : Res varRef * Container :=
  match StringFirstLower To name with
  | Ok lower =>
      match createVar (lower ++ suffix) ctr with
      | (v, ctr') => (Ok v, ctr')
      end
  | Panic msg => (Panic msg, ctr)
  end.

(** [for _, output := range p.Outputs { ... }] *)
Fixpoint outputsLoop (outputs : list ProviderOutput) (suffix : list Z)
    (varRefs : list varRef) (curStructVar : option (expr varRef))
    (valueExprs : list (expr varRef)) (ctr : Container)
  : Res (list varRef * list (expr varRef)) * Container :=
  match outputs with
  | [] => (Ok (varRefs, valueExprs), ctr)
  | output :: rest =>
      if negb (String.eqb (po_structFieldName output) "") then
        match po_startStructType output with
        | None =>
            outputsLoop rest suffix varRefs curStructVar
              (valueExprs ++ [FieldRef curStructVar (po_structFieldName output)]) ctr
        | Some startStructType =>
            match newVar (TypeName startStructType) suffix ctr with
            | (Ok v, ctr') =>
                outputsLoop rest suffix (varRefs ++ [v]) (Some (ExprVar v))
                  (valueExprs
                   ++ [FieldRef (Some (ExprVar v)) (po_structFieldName output)]) ctr'
            | (Panic msg, ctr') => (Panic msg, ctr')
            end
        end
      else
        match Name (po_Type output) with
        | Ok name =>
            match newVar name suffix ctr with
            | (Ok v, ctr') =>
                outputsLoop rest suffix (varRefs ++ [v]) None
                  (valueExprs ++ [ExprVar v]) ctr'
            | (Panic msg, ctr') => (Panic msg, ctr')
            end
        | Panic msg => (Panic msg, ctr)
        end
  end.

(** [for _, valueVar := range varRefs { if !first { varsDef += ", " }; varsDef += valueVar.emit(); first = false }] *)
Fixpoint varsLoop (varRefs : list varRef) (first : bool) (varsDef : list Z) : list Z :=
  match varRefs with
  | [] => varsDef
  | valueVar :: rest =>
      let varsDef1 := if negb first then varsDef ++ bytes_of ", " else varsDef in
      varsLoop rest false (varsDef1 ++ emit valueVar)
  end.

Definition codegenOutputs (p : ProviderDescriptor) (suffix : list Z) (ctr : Container)
  : Res (list Z * list (expr varRef)) * Container :=
  match outputsLoop (Outputs p) suffix [] None [] ctr with
  | (Ok (varRefs, valueExprs), ctr') =>
      let varsDef := varsLoop varRefs true [] in
      let varsDef := if hasError p then varsDef ++ bytes_of ", err" else varsDef in
      let varsDef := varsDef ++ bytes_of " := " in
      (Ok (varsDef, valueExprs), ctr')
  | (Panic msg, ctr') => (Panic msg, ctr')
  end.

(** [codegenWriteln] is a parameter as well. *)
Variable codegenWriteln : string -> Container -> Container.

Definition codegenErrCheck (p : ProviderDescriptor) (ctr : Container) : Container :=
  if hasError p then
    codegenWriteln "}"
      (codegenWriteln "    return err"
         (codegenWriteln "if err != nil {" ctr))
  else ctr.

End Codegen.

(** ** Vocabulary of the statements *)

Definition isErrType (t : Reflect.Type_) : bool := Reflect.Type_eqb t errType.

(** Some result other than the last one has type [error]. *)
Fixpoint errorNotLast (outs : list Reflect.Type_) : bool :=
  match outs with
  | [] => false
  | t :: rest =>
      match rest with
      | [] => false
      | _ :: _ => isErrType t || errorNotLast rest
      end
  end.

(** The last result has type [error]. *)
Definition endsWithError (outs : list Reflect.Type_) : bool :=
  match last outs with
  | Some t => isErrType t
  | None => false
  end.

(** The result types that are not [error], in order. *)
Definition nonErrorTypes (outs : list Reflect.Type_) : list Reflect.Type_ :=
  filter (fun t => isErrType t = false) outs.

(** Index of the [error] result, or [-1]. *)
Definition errIdxOf (outs : list Reflect.Type_) : Z :=
  if endsWithError outs then Z.of_nat (length outs) - 1 else -1.

(** The descriptor of a function all of whose [error] results are last: the
    statement of what extraction returns for it. *)
Definition descriptorOf (LocationFromPC : Z -> Location)
    (AssignableTo : Reflect.Type_ -> Reflect.Type_ -> bool)
    (f : FuncValue) : ProviderDescriptor :=
  {| Inputs := map ProviderInput_of (fnIn f);
     Outputs := map ProviderOutput_of (nonErrorTypes (fnOut f));
     Fn := Some (providerFn AssignableTo (IFunc f)
                   (endsWithError (fnOut f)) (errIdxOf (fnOut f)));
     Location_ := LocationFromPC (fnPC f);
     hasError := endsWithError (fnOut f) |}.

(** The program state after a call of [f] on [values] that leaves the store
    [s']. *)
Definition called (f : FuncValue) (values : list Reflect.Value) (w : World) (s' : Store)
  : World :=
  mkWorld (invocations w ++ [mkInvocation (fnPC f) values]) s'.

(** The rune that [string(runes)] writes for [r]. *)
Definition fixRune (r : Z) : Z := if utf8.ValidRune r then r else utf8.RuneError.

(** What the proofs about the first letter assume of the table
    [unicode.CaseRanges], which is data of the Go standard library: beyond
    ASCII, the lower-case and the upper-case mapping of a scalar value are
    scalar values, and mapping them once more changes nothing. *)
Definition CaseTableClosed (To : Z -> Z -> Z) : Prop :=
  forall r : Z, utf8.ValidRune r = true -> unicode.MaxASCII < r ->
    utf8.ValidRune (To unicode.LowerCase r) = true /\
    utf8.ValidRune (To unicode.UpperCase r) = true.

Definition CaseTableIdempotent (To : Z -> Z -> Z) : Prop :=
  forall r : Z, utf8.ValidRune r = true -> unicode.MaxASCII < r ->
    unicode.ToLower To (To unicode.LowerCase r) = To unicode.LowerCase r /\
    unicode.ToUpper To (To unicode.UpperCase r) = To unicode.UpperCase r.

(** The strings of [l] with [", "] between them. *)
Definition joinComma (l : list (list Z)) : list Z :=
  match l with
  | [] => []
  | x :: rest => x ++ concat (map (fun y => bytes_of ", " ++ y) rest)
  end.

(** The string that [StringFirstLower] returns. *)
Definition firstLower (To : Z -> Z -> Z) (s : list Z) : list Z :=
  match runes_of_string s with
  | [] => s
  | r0 :: rest => string_of_runes (unicode.ToLower To r0 :: rest)
  end.

(** The variables that successive calls of [createVar] return for [names],
    and the container they leave. *)
Fixpoint createVars {Container varRef : Type}
    (createVar : list Z -> Container -> varRef * Container)
    (names : list (list Z)) (ctr : Container) : list varRef * Container :=
  match names with
  | [] => ([], ctr)
  | name :: rest =>
      match createVar name ctr with
      | (v, ctr1) =>
          match createVars createVar rest ctr1 with
          | (vs, ctr2) => (v :: vs, ctr2)
          end
      end
  end.

(** The outputs for which a variable is made: those that are no struct
    fields, and the first field of each struct. *)
Definition makesVar (o : ProviderOutput) : bool :=
  String.eqb (po_structFieldName o) "" ||
  match po_startStructType o with Some _ => true | None => false end.

(** An output that is no struct field has a type. *)
Definition hasName (o : ProviderOutput) : Prop :=
  po_structFieldName o = "" -> po_Type o <> None.

(** Well-formed UTF-8: decoding the string and encoding the runes again
    gives the string back. *)
Definition validUTF8 (s : list Z) : Prop := string_of_runes (runes_of_string s) = s.

(** The case mappings of an ASCII character. *)
Definition asciiLower (b : Z) : Z := if (65 <=? b) && (b <=? 90) then b + 32 else b.
Definition asciiUpper (b : Z) : Z := if (97 <=? b) && (b <=? 122) then b - 32 else b.

(** [==] is equality and [<] a total order on the keys: so it is for
    integers and strings, and for floating-point numbers other than NaN. *)
Definition OrderedKeys {K : Type} (eqK ltK : K -> K -> bool) : Prop :=
  (forall a b : K, eqK a b = true <-> a = b) /\
  (forall a : K, ltK a a = false) /\
  (forall a b c : K, ltK a b = true -> ltK b c = true -> ltK a c = true) /\
  (forall a b : K, ltK a b = true \/ a = b \/ ltK b a = true).

(** A callback that leaves the map as it is. *)
Definition keepsMap {K V S E : Type}
    (forEach : K -> V -> list (K * V) * S -> option E * (list (K * V) * S)) : Prop :=
  forall (k : K) (v : V) (st : list (K * V) * S), (forEach k v st).2.1 = st.1.

(** Every call was made on a key-value pair of the map [m]. *)
Definition visitsPairsOf {K V E : Type} (m : list (K * V))
    (trace : list (CallRecord K V E)) : Prop :=
  Forall (fun c => (call_key c, call_value c) ∈ m) trace.

(** A callback without state, which does not write to the map either. *)
Definition stateless {K V E : Type} (f : K -> V -> option E)
  : K -> V -> list (K * V) * unit -> option E * (list (K * V) * unit) :=
  fun k v st => (f k v, st).

(** ** Concrete inputs *)

Module Examples.

Definition intType : Reflect.Type_ := Reflect.TData Reflect.Int "int".
Definition stringType : Reflect.Type_ := Reflect.TData Reflect.String "string".

(** [func(n int) (string, error)], which fails on zero. *)
Definition describe : FuncValue :=
  {| fnName := ""; fnIn := [intType]; fnOut := [stringType; errType];
     fnVariadic := false; fnPC := 4096;
     fnBody := fun values s =>
       match values with
       | [{| Reflect.Repr_of := Reflect.NonZero n |}] =>
           (Ok [Reflect.NonZero ("#" ++ n); Reflect.Zero], <["calls" := 1]> s)
       | _ => (Ok [Reflect.Zero; Reflect.NonZero "zero"], s)
       end |}.

(** [func(n int) (error, string)] *)
Definition errorFirst : FuncValue :=
  {| fnName := ""; fnIn := [intType]; fnOut := [errType; stringType];
     fnVariadic := false; fnPC := 8192;
     fnBody := fun _ s => (Ok [Reflect.Zero; Reflect.Zero], s) |}.

(** [func(ns ...int) string] *)
Definition variadicSum : FuncValue :=
  {| fnName := ""; fnIn := [Reflect.TData Reflect.Slice "[]int"]; fnOut := [stringType];
     fnVariadic := true; fnPC := 12288;
     fnBody := fun _ s => (Ok [Reflect.Zero], s) |}.

Definition locate (pc : Z) : Location :=
  if pc =? 4096 then "main.describe" else "main.other".

Definition assignable : Reflect.Type_ -> Reflect.Type_ -> bool := Reflect.Type_eqb.

Definition w0 : World := mkWorld [] ∅.

Definition seven : Reflect.Value := Reflect.mkValue intType (Reflect.NonZero "7").
Definition zero : Reflect.Value := Reflect.mkValue intType Reflect.Zero.

(** A table without entries: only ASCII letters change case. *)
Definition asciiOnly (_case r : Z) : Z := r.

(** [func(n int) string] *)
Definition render : FuncValue :=
  {| fnName := ""; fnIn := [intType]; fnOut := [stringType];
     fnVariadic := false; fnPC := 16384;
     fnBody := fun values s =>
       match values with
       | [{| Reflect.Repr_of := Reflect.NonZero n |}] => (Ok [Reflect.NonZero n], s)
       | _ => (Ok [Reflect.Zero], s)
       end |}.

(** A container that counts the variables it has made; a variable is its
    name. *)
Definition countingVar (name : list Z) (made : nat) : list Z * nat := (name, S made).

Definition typeName (t : Reflect.Type_) : list Z :=
  match t with
  | Reflect.TData _ name => bytes_of name
  | Reflect.TFunc name _ _ _ => bytes_of name
  end.

(** A descriptor after the expansion of an [Out] struct with the fields [A]
    and [B], followed by a plain output. *)
Definition expanded : ProviderDescriptor :=
  {| Inputs := [];
     Outputs :=
       [ {| po_Type := Some stringType;
            po_startStructType := Some (Reflect.TData Reflect.Struct "Result");
            po_structFieldName := "A" |};
         {| po_Type := Some intType; po_startStructType := None;
            po_structFieldName := "B" |};
         ProviderOutput_of intType ];
     Fn := None; Location_ := "main.expanded"; hasError := true |}.

(** A runtime that enumerates a map forwards or backwards. *)
Definition someOrder {K V : Type} (order : nat) (m : list (K * V)) : list K :=
  if Nat.even order then m.*1 else reverse m.*1.

Definition names : list (Z * string) := [(3, "three"); (1, "one"); (2, "two")].

(** A callback that counts its calls and fails on the key 2. *)
Definition failOnTwo (k : Z) (v : string) (st : list (Z * string) * nat)
  : option string * (list (Z * string) * nat) :=
  (if k =? 2 then Some v else None, (st.1, S st.2)).

(** A callback that counts its calls and never fails. *)
Definition countOnly (k : Z) (v : string) (st : list (Z * string) * nat)
  : option string * (list (Z * string) * nat) :=
  (None, (st.1, S st.2)).

(** A callback without state that fails on the keys above 1. *)
Definition failAboveOne (k : Z) (v : string) : option string :=
  if 1 <? k then Some v else None.

(** A callback that, called on the key 1, deletes the key 2 from the map. *)
Definition deleteTwo (k : Z) (v : string) (st : list (Z * string) * unit)
  : option string * (list (Z * string) * unit) :=
  (None, (if k =? 1 then filter (fun e => e.1 <> 2) st.1 else st.1, st.2)).

(** Floating-point keys as far as [==] and [<] go: a number, or NaN, on
    which every comparison is false. *)
Definition floatEq (a b : option Z) : bool :=
  match a, b with
  | Some x, Some y => x =? y
  | _, _ => false
  end.

Definition floatLt (a b : option Z) : bool :=
  match a, b with
  | Some x, Some y => x <? y
  | _, _ => false
  end.

(** The map with one entry, whose key is NaN. *)
Definition nanMap : list (option Z * string) := [(None, "not a number")].

Definition neverFails (k : option Z) (v : string) (st : list (option Z * string) * unit)
  : option string * (list (option Z * string) * unit) :=
  (None, st).

End Examples.

(** * Theorems *)

(** ** [reflect] and the loops of the extractor *)

Lemma isErrType_true (t : Reflect.Type_) : isErrType t = true <-> t = errType.
Proof.
  unfold isErrType, errType. destruct t as [k name | name ins outs v]; simpl.
  - rewrite andb_true_iff, bool_decide_eq_true, String.eqb_eq.
    split; [intros [-> ->]; reflexivity | intros [= -> ->]; auto].
  - split; [discriminate | discriminate].
Qed.

Lemma isErrType_false (t : Reflect.Type_) : isErrType t = false <-> t <> errType.
Proof.
  rewrite <- isErrType_true. destruct (isErrType t); split; congruence.
Qed.

Lemma errorNotLast_spec (outs : list Reflect.Type_) :
  errorNotLast outs = true <->
  exists i : nat, outs !! i = Some errType /\ (S i < length outs)%nat.
Proof.
  induction outs as [| t rest IH]; simpl.
  - split; [discriminate | intros (i & Hi & _); discriminate].
  - destruct rest as [| t' rest'].
    + split; [discriminate |].
      intros (i & Hi & Hlt). simpl in Hlt. lia.
    + rewrite orb_true_iff, isErrType_true, IH. split.
      * intros [-> | (i & Hi & Hlt)].
        -- exists 0%nat. split; [reflexivity | simpl; lia].
        -- exists (S i). split; [exact Hi | simpl in *; lia].
      * intros ([| i] & Hi & Hlt).
        -- left. simpl in Hi. congruence.
        -- right. exists i. split; [exact Hi | simpl in *; lia].
Qed.

Lemma set_index_ok {A} (l : list A) (i : nat) (a : A) :
  (i < length l)%nat -> set_index l i a = Ok (<[i := a]> l).
Proof. intros Hi. unfold set_index. destruct (decide (i < length l)%nat); [reflexivity | lia]. Qed.

Section LoopFacts.

Variables (name : string) (ins outs : list Reflect.Type_) (variadic : bool).

Let typ := Reflect.TFunc name ins outs variadic.

(** The first loop overwrites the slots from [i] on with the parameter types
    from [i] on. *)
Lemma inLoop_from (n i : nat) (in_ : list ProviderInput) :
  (i + n)%nat = length ins ->
  length in_ = length ins ->
  inLoop typ n i in_ = Ok (take i in_ ++ map ProviderInput_of (drop i ins)).
Proof.
  revert i in_. induction n as [| n IH]; intros i in_ Hn Hlen; simpl.
  - rewrite drop_ge by lia. rewrite take_ge by lia. simpl. by rewrite app_nil_r.
  - destruct (lookup_lt_is_Some_2 ins i) as [t Ht]; [lia |].
    rewrite Ht. simpl. rewrite set_index_ok by lia. simpl.
    rewrite IH; [| lia | by rewrite length_insert].
    f_equal.
    rewrite (drop_S ins t i Ht). simpl.
    rewrite (take_S_r (<[i:=ProviderInput_of t]> in_) i (ProviderInput_of t))
      by (apply list_lookup_insert_eq; lia).
    rewrite take_insert_ge by lia.
    by rewrite <- app_assoc.
Qed.

Lemma inLoop_all :
  inLoop typ (length ins) 0 (replicate (length ins) zeroProviderInput)
  = Ok (map ProviderInput_of ins).
Proof.
  rewrite inLoop_from; [reflexivity | lia | apply length_replicate].
Qed.

Lemma last_cons_cons {A} (a b : A) (l : list A) : last (a :: b :: l) = last (b :: l).
Proof. reflexivity. Qed.

(** The second loop, from result [i] on. *)
Lemma outLoop_from (loc : Location) (n i : nat) (errIdx : Z) (out : list ProviderOutput) :
  (i + n)%nat = length outs ->
  outLoop typ loc (length outs) n i errIdx out =
    if errorNotLast (drop i outs) then Ok (inl (ErrErrorNotLast loc))
    else Ok (inr (if endsWithError (drop i outs)
                  then Z.of_nat (length outs) - 1 else errIdx,
                  out ++ map ProviderOutput_of (nonErrorTypes (drop i outs)))).
Proof.
  revert i errIdx out. induction n as [| n IH]; intros i errIdx out Hn; simpl.
  - rewrite drop_ge by lia. simpl. by rewrite app_nil_r.
  - destruct (lookup_lt_is_Some_2 outs i) as [t Ht]; [lia |].
    rewrite Ht. simpl. rewrite (drop_S outs t i Ht).
    fold (isErrType t). unfold nonErrorTypes. rewrite filter_cons.
    destruct (isErrType t) eqn:Herr.
    + rewrite decide_False by discriminate.
      destruct (Z.eqb_spec (Z.of_nat i) (Z.of_nat (length outs) - 1)) as [Hlast | Hlast]; simpl.
      * assert (n = 0)%nat as -> by lia.
        rewrite (drop_ge outs (S i)) by lia. simpl.
        unfold endsWithError. simpl. rewrite Herr.
        rewrite app_nil_r, Hlast. reflexivity.
      * destruct (drop (S i) outs) as [| t' rest] eqn:Hd.
        -- apply (f_equal length) in Hd. rewrite length_drop in Hd. simpl in Hd. lia.
        -- simpl. by rewrite Herr.
    + rewrite decide_True by reflexivity.
      rewrite IH by lia. fold (nonErrorTypes (drop (S i) outs)).
      destruct (drop (S i) outs) as [| t' rest] eqn:Hd.
      * unfold endsWithError, nonErrorTypes. rewrite filter_nil. simpl.
        rewrite Herr, <- app_assoc. reflexivity.
      * change (errorNotLast (t :: t' :: rest))
          with (isErrType t || errorNotLast (t' :: rest)).
        rewrite Herr, orb_false_l.
        unfold endsWithError. rewrite last_cons_cons.
        destruct (errorNotLast (t' :: rest)); [reflexivity |].
        rewrite <- app_assoc. reflexivity.
Qed.

Lemma outLoop_all (loc : Location) :
  outLoop typ loc (length outs) (length outs) 0 (-1) [] =
    if errorNotLast outs then Ok (inl (ErrErrorNotLast loc))
    else Ok (inr (if endsWithError outs then Z.of_nat (length outs) - 1 else -1,
                  map ProviderOutput_of (nonErrorTypes outs))).
Proof. rewrite outLoop_from by lia. reflexivity. Qed.

End LoopFacts.

Lemma endsWithError_nonempty (outs : list Reflect.Type_) :
  endsWithError outs = true -> (0 < length outs)%nat.
Proof. destruct outs; [discriminate | simpl; lia]. Qed.

Lemma endsWithError_spec (outs : list Reflect.Type_) :
  endsWithError outs = true <-> last outs = Some errType.
Proof.
  unfold endsWithError. destruct (last outs) as [t |].
  - rewrite isErrType_true. split; congruence.
  - split; discriminate.
Qed.

(** Without a misplaced [error], the results are the non-error ones followed
    by the [error], if there is one. *)
Lemma nonErrorTypes_split (outs : list Reflect.Type_) :
  errorNotLast outs = false ->
  outs = nonErrorTypes outs ++ (if endsWithError outs then [errType] else []).
Proof.
  unfold nonErrorTypes, endsWithError.
  induction outs as [| t rest IH]; [reflexivity |].
  destruct rest as [| t' rest'].
  - intros _. rewrite filter_cons, filter_nil. simpl.
    destruct (isErrType t) eqn:Ht.
    + rewrite decide_False by discriminate. apply isErrType_true in Ht. by subst.
    + rewrite decide_True by reflexivity. reflexivity.
  - change (errorNotLast (t :: t' :: rest'))
      with (isErrType t || errorNotLast (t' :: rest')).
    intros [Ht Hrest]%orb_false_iff.
    rewrite filter_cons, decide_True by exact Ht.
    rewrite last_cons_cons. simpl. f_equal. exact (IH Hrest).
Qed.

(** ** The extractor *)

Lemma hasError_errIdxOf (outs : list Reflect.Type_) :
  (0 <=? errIdxOf outs) = endsWithError outs.
Proof.
  unfold errIdxOf. destruct (endsWithError outs) eqn:He; [| reflexivity].
  apply endsWithError_nonempty in He. apply Z.leb_le. lia.
Qed.

Section ExtractorFacts.

Variable LocationFromPC : Z -> Location.
Variable AssignableTo : Reflect.Type_ -> Reflect.Type_ -> bool.
Variable expandStructArgsProvider :
  ProviderDescriptor -> M (ProviderDescriptor * option GoError).

Local Abbreviation doExtract := (doExtractProviderDescriptor LocationFromPC AssignableTo).
Local Abbreviation Extract :=
  (ExtractProviderDescriptor LocationFromPC AssignableTo expandStructArgsProvider).
Local Abbreviation descriptorOf := (descriptorOf LocationFromPC AssignableTo).

(** The three outcomes of extraction on a function value. *)
Lemma doExtract_func (f : FuncValue) (w : World) :
  doExtract (IFunc f) w =
    (Ok (if fnVariadic f then
           (zeroProviderDescriptor, Some (ErrVariadic (LocationFromPC (fnPC f))))
         else if errorNotLast (fnOut f) then
           (zeroProviderDescriptor, Some (ErrErrorNotLast (LocationFromPC (fnPC f))))
         else (descriptorOf f, None)), w).
Proof.
  unfold doExtractProviderDescriptor, bind, lift, ret. simpl.
  destruct (fnVariadic f); [reflexivity |].
  unfold fnType. rewrite inLoop_all, outLoop_all.
  destruct (errorNotLast (fnOut f)); [reflexivity |].
  fold (errIdxOf (fnOut f)). rewrite hasError_errIdxOf. reflexivity.
Qed.

(** On anything that has a dynamic type other than a function type. *)
Lemma doExtract_not_func (ctr : Iface) (t : Reflect.Type_) (w : World) :
  dynType ctr = Some t ->
  Reflect.Kind_of t <> Reflect.Func ->
  doExtract ctr w = (Ok (zeroProviderDescriptor, Some (ErrExpectedFunc t)), w).
Proof.
  intros Ht Hk.
  unfold doExtractProviderDescriptor, bind, lift, ret, ValueOf_Type.
  rewrite Ht. rewrite bool_decide_eq_false_2 by exact Hk. reflexivity.
Qed.

(** On the nil interface, [val.Type()] panics. *)
Lemma doExtract_nil (w : World) :
  exists msg, doExtract INil w = (Panic msg, w).
Proof. eexists. reflexivity. Qed.

(** Extraction leaves the program state as it is. *)
Lemma doExtract_world (ctr : Iface) (w : World) : (doExtract ctr w).2 = w.
Proof.
  destruct ctr as [| f | d | k name r].
  - reflexivity.
  - by rewrite doExtract_func.
  - by rewrite (doExtract_not_func _ providerDescriptorType).
  - by rewrite (doExtract_not_func _ (Reflect.TData k name)).
Qed.

(** Its outcome does not depend on the program state. *)
Lemma doExtract_outcome (ctr : Iface) (w1 w2 : World) :
  (doExtract ctr w1).1 = (doExtract ctr w2).1.
Proof.
  destruct ctr as [| f | d | k name r].
  - reflexivity.
  - by rewrite !doExtract_func.
  - by rewrite !(doExtract_not_func _ providerDescriptorType).
  - by rewrite !(doExtract_not_func _ (Reflect.TData k name)).
Qed.

(** Only functions are accepted, and an accepted function is neither
    variadic nor has a misplaced [error]. *)
Lemma doExtract_accepted (ctr : Iface) (w w' : World) (d : ProviderDescriptor) :
  doExtract ctr w = (Ok (d, None), w') ->
  exists f, ctr = IFunc f /\ fnVariadic f = false /\
            errorNotLast (fnOut f) = false /\ d = descriptorOf f /\ w' = w.
Proof.
  destruct ctr as [| f | d0 | k name r]; intros Hx.
  - discriminate.
  - rewrite doExtract_func in Hx. exists f.
    destruct (fnVariadic f); [discriminate |].
    destruct (errorNotLast (fnOut f)); [discriminate |].
    injection Hx as <- <-. auto.
  - rewrite (doExtract_not_func _ providerDescriptorType) in Hx by done. discriminate.
  - rewrite (doExtract_not_func _ (Reflect.TData k name)) in Hx by done. discriminate.
Qed.

End ExtractorFacts.

(** ** The stored [Fn] *)

Lemma index_app_last {A} (l : list A) (a : A) :
  index (l ++ [a]) (Z.of_nat (length l)) = Ok a.
Proof.
  unfold index. destruct (Z.ltb_spec (Z.of_nat (length l)) 0) as [Hneg | _]; [lia |].
  rewrite Nat2Z.id, list_lookup_middle by reflexivity. reflexivity.
Qed.

Lemma slice_to_app_last {A} (l : list A) (a : A) :
  slice_to (l ++ [a]) (Z.of_nat (length l)) = Ok l.
Proof.
  unfold slice_to. rewrite length_app. simpl.
  destruct (Z.ltb_spec (Z.of_nat (length l)) 0) as [Hneg | _]; [lia |].
  destruct (Z.ltb_spec (Z.of_nat (length l + 1)) (Z.of_nat (length l))) as [Hbig | _]; [lia |].
  simpl. rewrite Nat2Z.id, take_app_length. reflexivity.
Qed.

Section FnFacts.

Variable AssignableTo : Reflect.Type_ -> Reflect.Type_ -> bool.

Local Abbreviation call := (Call AssignableTo).
Local Abbreviation provFn := (providerFn AssignableTo).

Lemma Call_returns (f : FuncValue) (values : list Reflect.Value) (w : World)
    (rs : list Reflect.Repr) (s' : Store) :
  argsAssignable AssignableTo values (fnIn f) = true ->
  fnBody f values (store w) = (Ok rs, s') ->
  call (IFunc f) values w
  = (Ok (zip_with Reflect.mkValue (fnOut f) rs), called f values w s').
Proof. intros Hargs Hbody. unfold Call. rewrite Hargs, Hbody. reflexivity. Qed.

Lemma Call_panics (f : FuncValue) (values : list Reflect.Value) (w : World)
    (msg : string) (s' : Store) :
  argsAssignable AssignableTo values (fnIn f) = true ->
  fnBody f values (store w) = (Panic msg, s') ->
  call (IFunc f) values w = (Panic msg, called f values w s').
Proof. intros Hargs Hbody. unfold Call. rewrite Hargs, Hbody. reflexivity. Qed.

(** With a trailing [error]: the results of the call split in the values and
    the error, and [Fn] returns the one or the other. *)
Lemma providerFn_with_error (f : FuncValue) (values : list Reflect.Value) (w : World)
    (rs : list Reflect.Repr) (s' : Store) :
  endsWithError (fnOut f) = true ->
  argsAssignable AssignableTo values (fnIn f) = true ->
  fnBody f values (store w) = (Ok rs, s') ->
  length rs = length (fnOut f) ->
  exists (vals : list Reflect.Value) (r : Reflect.Repr),
    zip_with Reflect.mkValue (fnOut f) rs = vals ++ [Reflect.mkValue errType r] /\
    provFn (IFunc f) true (errIdxOf (fnOut f)) values w =
      (Ok (match r with
           | Reflect.NonZero e => ([], Some (ErrOther e))
           | Reflect.Zero => (vals, None)
           end), called f values w s').
Proof.
  intros Hend Hargs Hbody Hlen.
  unfold errIdxOf. rewrite Hend.
  apply endsWithError_spec, last_Some in Hend as [outs' Houts].
  destruct (last rs) as [r |] eqn:Hr.
  2: { apply last_None in Hr. subst rs. rewrite Houts, length_app in Hlen.
       simpl in Hlen. lia. }
  apply last_Some in Hr as [rs' ->].
  assert (length outs' = length rs') as Hlen'.
  { rewrite Houts, !length_app in Hlen. simpl in Hlen. lia. }
  exists (zip_with Reflect.mkValue outs' rs'), r.
  assert (zip_with Reflect.mkValue (fnOut f) (rs' ++ [r])
          = zip_with Reflect.mkValue outs' rs' ++ [Reflect.mkValue errType r]) as Hres.
  { rewrite Houts, zip_with_app by exact Hlen'. reflexivity. }
  split; [exact Hres |].
  unfold providerFn, bind. rewrite (Call_returns _ _ _ _ _ Hargs Hbody), Hres.
  assert (Z.of_nat (length (fnOut f)) - 1
          = Z.of_nat (length (zip_with Reflect.mkValue outs' rs'))) as ->.
  { rewrite length_zip_with_l_eq by exact Hlen'.
    rewrite Houts, length_app. simpl. lia. }
  unfold lift. rewrite index_app_last.
  destruct r as [| e]; simpl.
  - rewrite slice_to_app_last. reflexivity.
  - reflexivity.
Qed.

(** Without one, [Fn] returns the results of the call as they are. *)
Lemma providerFn_without_error (f : FuncValue) (values : list Reflect.Value) (w : World)
    (errIdx : Z) :
  provFn (IFunc f) false errIdx values w =
    match call (IFunc f) values w with
    | (Ok res, w') => (Ok (res, None), w')
    | (Panic msg, w') => (Panic msg, w')
    end.
Proof.
  unfold providerFn, bind.
  destruct (call (IFunc f) values w) as [[res | msg] w']; reflexivity.
Qed.

(** A panic of the function is a panic of [Fn]. *)
Lemma providerFn_panics (f : FuncValue) (values : list Reflect.Value) (w : World)
    (hasErr : bool) (errIdx : Z) (msg : string) (w' : World) :
  call (IFunc f) values w = (Panic msg, w') ->
  provFn (IFunc f) hasErr errIdx values w = (Panic msg, w').
Proof. intros Hc. unfold providerFn, bind. rewrite Hc. reflexivity. Qed.

End FnFacts.

(** ** Ordered iteration over maps *)

Section OrderedMapsFacts.

Context {K V : Type} `{Inhabited V}.

Variable eqK : K -> K -> bool.
Variable ltK : K -> K -> bool.
Variable mapsKeys : nat -> list (K * V) -> list K.

(** [maps.Keys] returns the key of every entry, in some order. *)
Hypothesis mapsKeys_keys :
  forall (order : nat) (m : list (K * V)), mapsKeys order m ≡ₚ m.*1.

Local Abbreviation OrderedKeysOf := (OrderedMapKeys ltK mapsKeys).

Lemma OrderedMapKeys_Permutation (order : nat) (m : list (K * V)) :
  OrderedKeysOf order m ≡ₚ m.*1.
Proof.
  unfold OrderedMapKeys, slicesSort.
  rewrite (@merge_sort_Permutation K (notAfter ltK) (notAfter_dec ltK)).
  apply mapsKeys_keys.
Qed.

Lemma OrderedMapKeys_elem_of (order : nat) (m : list (K * V)) (k : K) :
  k ∈ OrderedKeysOf order m <-> exists v, (k, v) ∈ m.
Proof.
  rewrite OrderedMapKeys_Permutation, list_elem_of_fmap. split.
  - intros ([k' v] & -> & Hin). by exists v.
  - intros [v Hv]. by exists (k, v).
Qed.

(** The recorded calls of [rangeKeys]: one per key of a prefix of [keys], in
    order, each with the value that the map of that moment has for the key;
    all of them return nil, except that the last one returns the error, if
    there is an error.  A callback that keeps the map is always called with
    the map [m]. *)
Lemma rangeKeys_recording {S E : Type} (keys : list K)
    (forEach : K -> V -> list (K * V) * S -> option E * (list (K * V) * S))
    (m : list (K * V)) (s : S) (log : list (CallRecord K V E)) :
  exists (n : nat) (trace : list (CallRecord K V E)),
    rangeKeys eqK keys (recording forEach) (m, (s, log))
    = ((rangeKeys eqK keys forEach (m, s)).1,
       ((rangeKeys eqK keys forEach (m, s)).2.1,
        ((rangeKeys eqK keys forEach (m, s)).2.2, log ++ trace))) /\
    map call_key trace = take n keys /\
    Forall (fun c => call_value c = mapIndex eqK (call_map c) (call_key c)) trace /\
    (keepsMap forEach -> Forall (fun c => call_map c = m) trace) /\
    match (rangeKeys eqK keys forEach (m, s)).1 with
    | None => n = length keys /\ Forall (fun c => call_result c = None) trace
    | Some err =>
        exists pre c, trace = pre ++ [c] /\
          Forall (fun c' => call_result c' = None) pre /\ call_result c = Some err
    end.
Proof.
  revert m s log. induction keys as [| k keys IH]; intros m s log.
  - exists 0%nat, []. simpl. rewrite app_nil_r.
    split; [reflexivity |]. split; [reflexivity |]. split; [constructor |].
    split; [intros _; constructor |]. split; [reflexivity | constructor].
  - simpl rangeKeys. unfold recording at 1. simpl fst. simpl snd.
    pose proof (fun Hkeep : keepsMap forEach => Hkeep k (mapIndex eqK m k) (m, s)) as Hm1.
    destruct (forEach k (mapIndex eqK m k) (m, s)) as [[err |] [m1 s1]] eqn:Hcall.
    + exists 1%nat, [mkCallRecord k (mapIndex eqK m k) (Some err) m]. simpl.
      rewrite take_0.
      split; [reflexivity |]. split; [reflexivity |].
      split; [by constructor |]. split; [intros _; by constructor |].
      exists [], (mkCallRecord k (mapIndex eqK m k) (Some err) m).
      split; [reflexivity |]. split; [constructor | reflexivity].
    + destruct (IH m1 s1 (log ++ [mkCallRecord k (mapIndex eqK m k) None m]))
        as (n & trace & Hrun & Hkeys & Hvals & Hmaps & Hres).
      exists (Datatypes.S n), (mkCallRecord k (mapIndex eqK m k) None m :: trace).
      rewrite Hrun, <- app_assoc. simpl.
      split; [reflexivity |]. split; [by rewrite Hkeys |].
      split; [by constructor |].
      split.
      { intros Hkeep. simpl in Hm1. specialize (Hm1 Hkeep). subst m1.
        constructor; [reflexivity | by apply Hmaps]. }
      destruct (rangeKeys eqK keys forEach (m1, s1)).1 as [err |].
      * destruct Hres as (pre & c & -> & Hpre & Hc).
        exists (mkCallRecord k (mapIndex eqK m k) None m :: pre), c.
        split; [reflexivity |]. split; [by constructor | exact Hc].
      * destruct Hres as [-> Hall]. split; [reflexivity | by constructor].
Qed.

(** From here on, [==] is equality and [<] a total order. *)
Hypothesis keys_ordered : OrderedKeys eqK ltK.

Lemma eqK_true (a b : K) : eqK a b = true <-> a = b.
Proof. apply keys_ordered. Qed.

Lemma ltK_irrefl (a : K) : ltK a a = false.
Proof. apply keys_ordered. Qed.

Lemma ltK_trans (a b c : K) : ltK a b = true -> ltK b c = true -> ltK a c = true.
Proof. apply keys_ordered. Qed.

Lemma ltK_trichotomy (a b : K) : ltK a b = true \/ a = b \/ ltK b a = true.
Proof. apply keys_ordered. Qed.

Lemma ltK_asym (a b : K) : ltK a b = true -> ltK b a = false.
Proof.
  intros Hab. destruct (ltK b a) eqn:Hba; [| reflexivity].
  rewrite <- (ltK_irrefl a). symmetry. by apply (ltK_trans a b a).
Qed.

#[local] Instance notAfter_refl : Reflexive (notAfter ltK).
Proof. intros a. apply ltK_irrefl. Qed.

#[local] Instance notAfter_trans : Transitive (notAfter ltK).
Proof.
  intros a b c Hab Hbc. unfold notAfter in *.
  destruct (ltK c a) eqn:Hca; [| reflexivity].
  destruct (ltK_trichotomy a b) as [Hlt | [-> | Hlt]].
  - rewrite (ltK_trans c a b Hca Hlt) in Hbc. discriminate.
  - congruence.
  - congruence.
Qed.

#[local] Instance notAfter_antisym : AntiSymm (=) (notAfter ltK).
Proof.
  intros a b Hab Hba. unfold notAfter in *.
  destruct (ltK_trichotomy a b) as [Hlt | [-> | Hlt]]; congruence.
Qed.

#[local] Instance notAfter_total : Total (notAfter ltK).
Proof.
  intros a b. unfold notAfter.
  destruct (ltK b a) eqn:Hba; [right; by apply ltK_asym | by left].
Qed.

Lemma OrderedMapKeys_StronglySorted (order : nat) (m : list (K * V)) :
  StronglySorted (notAfter ltK) (OrderedKeysOf order m).
Proof.
  apply (@StronglySorted_merge_sort K (notAfter ltK) (notAfter_dec ltK)); apply _.
Qed.

(** Sorted without repetition is strictly ascending. *)
Lemma StronglySorted_ltK (l : list K) :
  StronglySorted (notAfter ltK) l -> NoDup l ->
  StronglySorted (fun a b => ltK a b = true) l.
Proof.
  induction 1 as [| k l Hl IH Hk]; intros Hnd; constructor.
  - apply IH. by apply NoDup_cons in Hnd as [_ ?].
  - apply NoDup_cons in Hnd as [Hnotin _].
    apply Forall_forall. intros k' Hin.
    rewrite Forall_forall in Hk. specialize (Hk k' Hin). unfold notAfter in Hk.
    destruct (ltK_trichotomy k k') as [Hlt | [-> | Hlt]]; [exact Hlt | done | congruence].
Qed.

Lemma OrderedMapKeys_ascending (order : nat) (m : list (K * V)) :
  NoDup m.*1 ->
  StronglySorted (fun a b => ltK a b = true) (OrderedKeysOf order m).
Proof.
  intros Hnd. apply StronglySorted_ltK.
  - apply OrderedMapKeys_StronglySorted.
  - by rewrite OrderedMapKeys_Permutation.
Qed.

(** The order in which the runtime enumerates the map does not show. *)
Lemma OrderedMapKeys_order_irrelevant (order order' : nat) (m : list (K * V)) :
  OrderedKeysOf order m = OrderedKeysOf order' m.
Proof.
  apply (StronglySorted_unique (notAfter ltK)).
  - apply OrderedMapKeys_StronglySorted.
  - apply OrderedMapKeys_StronglySorted.
  - by rewrite !OrderedMapKeys_Permutation.
Qed.

(** In a map that holds each key once, [m[k]] is the value of the entry of
    [k]. *)
Lemma mapIndex_entry (m : list (K * V)) (k : K) (v : V) :
  NoDup m.*1 -> (k, v) ∈ m -> mapIndex eqK m k = v.
Proof.
  induction m as [| [k' v'] m IH]; intros Hnd Hin; [by apply elem_of_nil in Hin |].
  simpl in Hnd. apply NoDup_cons in Hnd as [Hnotin Hnd].
  simpl. apply elem_of_cons in Hin as [[= <- <-] | Hin].
  - by rewrite (proj2 (eqK_true k k)).
  - destruct (eqK k' k) eqn:Heq; [| by apply IH].
    apply eqK_true in Heq as ->. destruct Hnotin.
    apply list_elem_of_fmap. by exists (k, v).
Qed.

Lemma mapIndex_keys (m : list (K * V)) :
  NoDup m.*1 -> map (fun k => (k, mapIndex eqK m k)) m.*1 = m.
Proof.
  intros Hnd. rewrite map_map.
  assert (forall e, e ∈ m -> (e.1, mapIndex eqK m e.1) = e) as Hall.
  { intros [k v] Hin. simpl. by rewrite (mapIndex_entry m k v Hnd Hin). }
  assert (forall l : list (K * V),
            (forall e, e ∈ l -> (e.1, mapIndex eqK m e.1) = e) ->
            map (fun x => (x.1, mapIndex eqK m x.1)) l = l) as Hgen.
  { induction l as [| e l IH]; intros Hl; [reflexivity |].
    simpl. rewrite Hl by (by left). f_equal. apply IH.
    intros e' Hin. apply Hl. by right. }
  by apply Hgen.
Qed.

(** The pairs of the sorted keys with what the map has for them are the
    entries of the map. *)
Lemma OrderedMapKeys_entries (order : nat) (m : list (K * V)) :
  NoDup m.*1 ->
  map (fun k => (k, mapIndex eqK m k)) (OrderedKeysOf order m) ≡ₚ m.
Proof.
  intros Hnd.
  transitivity (map (fun k => (k, mapIndex eqK m k)) m.*1).
  - apply Permutation_map, OrderedMapKeys_Permutation.
  - by rewrite (mapIndex_keys m Hnd).
Qed.

End OrderedMapsFacts.

(** ** UTF-8 *)

#[local] Ltac Zify.zify_post_hook ::= Z.div_mod_to_equations.

(** Settle the comparisons of the goal, by arithmetic where it decides them
    and by cases where it does not. *)
Ltac plain t :=
  lazymatch t with
  | context [if _ then _ else _] => fail
  | _ => idtac
  end.

Ltac cmp_step :=
  match goal with
  | |- context [Z.ltb ?a ?b] =>
      plain a; plain b;
      first [ rewrite (proj2 (Z.ltb_lt a b)) by lia
            | rewrite (proj2 (Z.ltb_ge a b)) by lia
            | destruct (Z.ltb_spec a b) ]
  | |- context [Z.leb ?a ?b] =>
      plain a; plain b;
      first [ rewrite (proj2 (Z.leb_le a b)) by lia
            | rewrite (proj2 (Z.leb_gt a b)) by lia
            | destruct (Z.leb_spec a b) ]
  | |- context [Z.eqb ?a ?b] =>
      plain a; plain b;
      first [ rewrite (proj2 (Z.eqb_eq a b)) by lia
            | rewrite (proj2 (Z.eqb_neq a b)) by lia
            | destruct (Z.eqb_spec a b) ]
  end; cbn [andb orb negb]; cbv beta iota.

Ltac cmp := repeat cmp_step.

Lemma DecodeRune_EncodeRune (r : Z) (bs : list Z) :
  utf8.DecodeRune (utf8.EncodeRune r ++ bs)
  = (fixRune r, length (utf8.EncodeRune r)).
Proof.
  unfold fixRune, utf8.EncodeRune, utf8.ValidRune,
    utf8.surrogateMin, utf8.surrogateMax, utf8.MaxRune, utf8.RuneError.
  assert (r < 0 \/ 0 <= r <= 0x7F \/ 0x80 <= r <= 0x7FF \/ 0x800 <= r < 0xD800 \/
          0xD800 <= r <= 0xDFFF \/ 0xE000 <= r <= 0xFFFF \/
          0x10000 <= r <= 0x10FFFF \/ 0x10FFFF < r) as Hcases by lia.
  destruct Hcases as [Hr | [Hr | [Hr | [Hr | [Hr | [Hr | [Hr | Hr]]]]]]];
    cmp; cbn [app length]; unfold utf8.DecodeRune, utf8.first, utf8.cont; cmp;
    try reflexivity; f_equal; lia.
Qed.

Lemma fixRune_valid (r : Z) : utf8.ValidRune r = true -> fixRune r = r.
Proof. unfold fixRune. by intros ->. Qed.

Lemma fixRune_is_valid (r : Z) : utf8.ValidRune (fixRune r) = true.
Proof.
  unfold fixRune. destruct (utf8.ValidRune r) eqn:Hr; [exact Hr | reflexivity].
Qed.

Lemma EncodeRune_nonempty (r : Z) : (0 < length (utf8.EncodeRune r))%nat.
Proof.
  unfold utf8.EncodeRune.
  repeat match goal with |- context [if ?b then _ else _] => destruct b end;
    simpl; lia.
Qed.

(** Whatever the bytes, a decoded rune is a Unicode scalar value. *)
Lemma DecodeRune_valid (s : list Z) :
  isString s -> utf8.ValidRune (utf8.DecodeRune s).1 = true.
Proof.
  intros Hs.
  destruct s as [| p0 t0]; [reflexivity |].
  apply Forall_cons in Hs as [Hp0 _].
  unfold utf8.DecodeRune, utf8.first, utf8.cont.
  destruct t0 as [| b1 [| b2 [| b3 t3]]];
    cmp; cbn [fst];
    unfold utf8.ValidRune, utf8.surrogateMin, utf8.surrogateMax, utf8.MaxRune,
      utf8.RuneError;
    cmp; reflexivity || lia.
Qed.

(** Decoding takes at least one byte. *)
Lemma DecodeRune_size (s : list Z) :
  s <> [] -> (1 <= (utf8.DecodeRune s).2)%nat.
Proof.
  intros Hs.
  destruct s as [| p0 t0]; [done |].
  unfold utf8.DecodeRune, utf8.first, utf8.cont.
  destruct t0 as [| b1 [| b2 [| b3 t3]]]; cmp; cbn [snd]; lia.
Qed.

#[local] Arguments utf8.DecodeRune : simpl never.
#[local] Arguments utf8.EncodeRune : simpl never.

(** Bounding the number of runes by the number of bytes loses nothing. *)
Lemma decodeRunes_enough (n m : nat) (s : list Z) :
  (length s <= n)%nat -> (length s <= m)%nat -> decodeRunes n s = decodeRunes m s.
Proof.
  revert m s. induction n as [| n IH]; intros m s Hn Hm.
  - destruct s; [| simpl in Hn; lia]. by destruct m.
  - destruct s as [| b t]; [by destruct m |].
    destruct m as [| m]; [simpl in Hm; lia |].
    simpl decodeRunes.
    pose proof (DecodeRune_size (b :: t) ltac:(done)) as Hsize.
    destruct (utf8.DecodeRune (b :: t)) as [r size]. simpl in Hsize.
    f_equal. apply IH; rewrite length_drop; simpl in *; lia.
Qed.

Lemma runes_of_string_nil : runes_of_string [] = [].
Proof. reflexivity. Qed.

Lemma runes_of_string_cons (b : Z) (t : list Z) :
  runes_of_string (b :: t)
  = (utf8.DecodeRune (b :: t)).1
    :: runes_of_string (drop (utf8.DecodeRune (b :: t)).2 (b :: t)).
Proof.
  unfold runes_of_string. simpl decodeRunes.
  pose proof (DecodeRune_size (b :: t) ltac:(done)) as Hsize.
  destruct (utf8.DecodeRune (b :: t)) as [r size]. simpl in *.
  f_equal. apply decodeRunes_enough; rewrite ?length_drop; simpl; lia.
Qed.

Lemma runes_of_string_valid (s : list Z) :
  isString s -> Forall (fun r => utf8.ValidRune r = true) (runes_of_string s).
Proof.
  remember (length s) as n eqn:Hn. revert s Hn.
  induction (lt_wf n) as [n _ IH]. intros s -> Hs.
  destruct s as [| b t]; [constructor |].
  rewrite runes_of_string_cons. constructor.
  - by apply DecodeRune_valid.
  - pose proof (DecodeRune_size (b :: t) ltac:(done)) as Hsize.
    eapply IH; [| reflexivity |].
    + rewrite length_drop. simpl in *. lia.
    + unfold isString. by apply Forall_drop.
Qed.

Lemma runes_of_string_EncodeRune (r : Z) (bs : list Z) :
  runes_of_string (utf8.EncodeRune r ++ bs) = fixRune r :: runes_of_string bs.
Proof.
  pose proof (EncodeRune_nonempty r) as Hne.
  pose proof (DecodeRune_EncodeRune r bs) as Hdec.
  destruct (utf8.EncodeRune r ++ bs) as [| b t] eqn:Happ.
  { apply (f_equal length) in Happ. rewrite length_app in Happ. simpl in Happ. lia. }
  rewrite runes_of_string_cons, Hdec. simpl fst. simpl snd.
  rewrite <- Happ, drop_app_length. reflexivity.
Qed.

(** Decoding what was encoded gives the runes back, [RuneError] for those
    that are no scalar values. *)
Lemma runes_of_string_of_runes (runes : list Z) :
  runes_of_string (string_of_runes runes) = map fixRune runes.
Proof.
  unfold string_of_runes. induction runes as [| r runes IH]; [reflexivity |].
  simpl. rewrite runes_of_string_EncodeRune. by rewrite IH.
Qed.

Lemma map_fixRune_valid (runes : list Z) :
  Forall (fun r => utf8.ValidRune r = true) runes -> map fixRune runes = runes.
Proof.
  induction 1 as [| r runes Hr _ IH]; [reflexivity |].
  simpl. by rewrite fixRune_valid, IH.
Qed.

Lemma EncodeRune_bytes (r : Z) : isString (utf8.EncodeRune r).
Proof.
  unfold isString, utf8.EncodeRune, utf8.ValidRune,
    utf8.surrogateMin, utf8.surrogateMax, utf8.MaxRune.
  cmp; repeat constructor; lia.
Qed.

Lemma string_of_runes_bytes (runes : list Z) : isString (string_of_runes runes).
Proof.
  unfold string_of_runes, isString.
  induction runes as [| r runes IH]; [constructor |].
  simpl. apply Forall_app. split; [apply EncodeRune_bytes | exact IH].
Qed.

(** ** The first letter of a string *)

(** A string that is not empty has a first rune. *)
Lemma runes_of_string_nonempty (s : list Z) :
  s <> [] -> exists r0 rest, runes_of_string s = r0 :: rest.
Proof.
  destruct s as [| b t]; [done |]. intros _.
  rewrite runes_of_string_cons. eauto.
Qed.

Section FirstLetterFacts.

Variable To : Z -> Z -> Z.

(** Both functions decode, map the first rune and encode again. *)
Lemma StringFirstLower_runes (s : list Z) (r0 : Z) (rest : list Z) :
  runes_of_string s = r0 :: rest ->
  StringFirstLower To s = Ok (string_of_runes (unicode.ToLower To r0 :: rest)).
Proof.
  intros Hr. unfold StringFirstLower.
  destruct s as [| b t]; [discriminate |].
  simpl length. cbv beta iota. change (S (length t) =? 0)%nat with false.
  cbv beta iota. rewrite Hr. reflexivity.
Qed.

Lemma StringFirstUpper_runes (s : list Z) (r0 : Z) (rest : list Z) :
  runes_of_string s = r0 :: rest ->
  StringFirstUpper To s = Ok (string_of_runes (unicode.ToUpper To r0 :: rest)).
Proof.
  intros Hr. unfold StringFirstUpper.
  destruct s as [| b t]; [discriminate |].
  simpl length. cbv beta iota. change (S (length t) =? 0)%nat with false.
  cbv beta iota. rewrite Hr. reflexivity.
Qed.

Lemma ToLower_ascii (r : Z) :
  r <= unicode.MaxASCII -> utf8.ValidRune r = true ->
  utf8.ValidRune (unicode.ToLower To r) = true /\
  unicode.ToLower To (unicode.ToLower To r) = unicode.ToLower To r.
Proof.
  unfold unicode.ToLower, unicode.MaxASCII, utf8.ValidRune,
    utf8.surrogateMin, utf8.surrogateMax, utf8.MaxRune.
  intros Hr. cmp; intros Hv; try discriminate; split; reflexivity || lia.
Qed.

Lemma ToUpper_ascii (r : Z) :
  r <= unicode.MaxASCII -> utf8.ValidRune r = true ->
  utf8.ValidRune (unicode.ToUpper To r) = true /\
  unicode.ToUpper To (unicode.ToUpper To r) = unicode.ToUpper To r.
Proof.
  unfold unicode.ToUpper, unicode.MaxASCII, utf8.ValidRune,
    utf8.surrogateMin, utf8.surrogateMax, utf8.MaxRune.
  intros Hr. cmp; intros Hv; try discriminate; split; reflexivity || lia.
Qed.

Hypothesis To_closed : CaseTableClosed To.
Hypothesis To_idempotent : CaseTableIdempotent To.

Lemma ToLower_valid_idempotent (r : Z) :
  utf8.ValidRune r = true ->
  utf8.ValidRune (unicode.ToLower To r) = true /\
  unicode.ToLower To (unicode.ToLower To r) = unicode.ToLower To r.
Proof.
  intros Hv. destruct (Z.le_gt_cases r unicode.MaxASCII) as [Hr | Hr].
  - by apply ToLower_ascii.
  - destruct (To_closed r Hv Hr) as [Hlo _].
    destruct (To_idempotent r Hv Hr) as [Hidem _].
    assert (unicode.ToLower To r = To unicode.LowerCase r) as ->; [| done].
    unfold unicode.ToLower. by rewrite (proj2 (Z.leb_gt r unicode.MaxASCII)) by lia.
Qed.

Lemma ToUpper_valid_idempotent (r : Z) :
  utf8.ValidRune r = true ->
  utf8.ValidRune (unicode.ToUpper To r) = true /\
  unicode.ToUpper To (unicode.ToUpper To r) = unicode.ToUpper To r.
Proof.
  intros Hv. destruct (Z.le_gt_cases r unicode.MaxASCII) as [Hr | Hr].
  - by apply ToUpper_ascii.
  - destruct (To_closed r Hv Hr) as [_ Hup].
    destruct (To_idempotent r Hv Hr) as [_ Hidem].
    assert (unicode.ToUpper To r = To unicode.UpperCase r) as ->; [| done].
    unfold unicode.ToUpper. by rewrite (proj2 (Z.leb_gt r unicode.MaxASCII)) by lia.
Qed.

End FirstLetterFacts.

(** ** The claims about the extractor *)

Lemma providerFn_world (AssignableTo : Reflect.Type_ -> Reflect.Type_ -> bool)
    (val : Iface) (hasErr : bool) (errIdx : Z) (values : list Reflect.Value) (w : World) :
  (providerFn AssignableTo val hasErr errIdx values w).2
  = (Call AssignableTo val values w).2.
Proof.
  unfold providerFn, bind, lift, ret.
  destruct (Call AssignableTo val values w) as [[res | msg] w']; [| reflexivity].
  destruct hasErr; [| reflexivity].
  destruct (index res errIdx) as [err | msg]; [| reflexivity].
  destruct (negb (Reflect.IsZero err)).
  - destruct (Interface_error err); reflexivity.
  - destruct (slice_to res errIdx); reflexivity.
Qed.

Lemma Call_invocations (AssignableTo : Reflect.Type_ -> Reflect.Type_ -> bool)
    (f : FuncValue) (values : list Reflect.Value) (w : World) :
  argsAssignable AssignableTo values (fnIn f) = true ->
  invocations (Call AssignableTo (IFunc f) values w).2
  = invocations w ++ [mkInvocation (fnPC f) values].
Proof.
  intros Hargs. unfold Call. rewrite Hargs.
  destruct (fnBody f values (store w)) as [[rs | msg] s']; reflexivity.
Qed.

Section ExtractorClaims.

Variable LocationFromPC : Z -> Location.
Variable AssignableTo : Reflect.Type_ -> Reflect.Type_ -> bool.
Variable expandStructArgsProvider :
  ProviderDescriptor -> M (ProviderDescriptor * option GoError).

Local Abbreviation doExtract := (doExtractProviderDescriptor LocationFromPC AssignableTo).
Local Abbreviation Extract :=
  (ExtractProviderDescriptor LocationFromPC AssignableTo expandStructArgsProvider).

(** C1.  A function one of whose results is of type [error] at a position
    other than the last is rejected: [doExtractProviderDescriptor] returns
    an error together with the zero descriptor, and leaves the state alone.
    The error is the one about the misplaced [error] result, unless the
    function is variadic too: that is tested first and then reported. *)
Theorem misplaced_error_output_rejected (f : FuncValue) (i : nat) (w : World) :
  fnOut f !! i = Some errType ->
  i <> (length (fnOut f) - 1)%nat ->
  doExtract (IFunc f) w =
    (Ok (zeroProviderDescriptor,
         Some (if fnVariadic f
               then ErrVariadic (LocationFromPC (fnPC f))
               else ErrErrorNotLast (LocationFromPC (fnPC f)))), w).
Proof.
  intros Hi Hnotlast.
  assert (errorNotLast (fnOut f) = true) as Hmis.
  { apply errorNotLast_spec. exists i. split; [exact Hi |].
    apply lookup_lt_Some in Hi. lia. }
  rewrite doExtract_func, Hmis. by destruct (fnVariadic f).
Qed.

(** C2.  For an extracted function whose last result is of type [error],
    called on arguments that fit its parameters: the stored [Fn] makes the
    call, and returns a non-nil error exactly when the last result of the
    call is a non-nil error, then that error and no values; otherwise it
    returns the results before the error result, in order. *)
Theorem Fn_error_short_circuits (f : FuncValue) (d : ProviderDescriptor)
    (w0 w0' : World) (values : list Reflect.Value) (w : World)
    (rs : list Reflect.Repr) (s' : Store) :
  doExtract (IFunc f) w0 = (Ok (d, None), w0') ->
  last (fnOut f) = Some errType ->
  argsAssignable AssignableTo values (fnIn f) = true ->
  fnBody f values (store w) = (Ok rs, s') ->
  length rs = length (fnOut f) ->
  exists fn vals errv,
    Fn d = Some fn /\
    Call AssignableTo (IFunc f) values w = (Ok (vals ++ [errv]), called f values w s') /\
    Reflect.Type_of errv = errType /\
    exists out err,
      fn values w = (Ok (out, err), called f values w s') /\
      (err <> None <-> Reflect.IsZero errv = false) /\
      (forall e, err = Some e -> out = [] /\ Interface_error errv = Ok e) /\
      (err = None -> out = vals).
Proof.
  intros Hext Hlast Hargs Hbody Hlen.
  apply doExtract_accepted in Hext as (f' & [= <-] & _ & _ & -> & _).
  apply endsWithError_spec in Hlast.
  destruct (providerFn_with_error AssignableTo f values w rs s' Hlast Hargs Hbody Hlen)
    as (vals & r & Hres & Hfn).
  eexists _, vals, (Reflect.mkValue errType r).
  split; [reflexivity |].
  split; [by rewrite (Call_returns _ _ _ _ _ _ Hargs Hbody), Hres |].
  split; [reflexivity |].
  simpl Fn. rewrite Hlast, Hfn.
  destruct r as [| e]; eexists _, _; (split; [reflexivity |]); simpl.
  - split; [split; [congruence | discriminate] |].
    split; [discriminate | reflexivity].
  - split; [split; [reflexivity | discriminate] |].
    split; [by intros ? [= <-] | discriminate].
Qed.

(** C3.  The [Outputs] of an accepted callable are its result types other
    than [error], in the order of declaration; an [error] result, which can
    only be the last one, is not among them and is recorded as [hasError]. *)
Theorem Outputs_are_the_non_error_results (ctr : Iface) (w w' : World)
    (d : ProviderDescriptor) :
  doExtract ctr w = (Ok (d, None), w') ->
  exists f, ctr = IFunc f /\
    Outputs d = map ProviderOutput_of (nonErrorTypes (fnOut f)) /\
    Forall (fun o => po_Type o <> Some errType) (Outputs d) /\
    (hasError d = true <-> last (fnOut f) = Some errType) /\
    map Some (fnOut f)
    = map po_Type (Outputs d) ++ (if hasError d then [Some errType] else []).
Proof.
  intros Hext.
  apply doExtract_accepted in Hext as (f & -> & _ & Hmis & -> & _).
  exists f. split; [reflexivity |]. simpl.
  split; [reflexivity |].
  split.
  { apply Forall_map, Forall_forall. intros t Ht. simpl.
    apply list_elem_of_filter in Ht as [Ht _]. apply isErrType_false in Ht. congruence. }
  split; [apply endsWithError_spec |].
  rewrite (nonErrorTypes_split (fnOut f) Hmis) at 1.
  rewrite map_app, <- !list_fmap_compose.
  f_equal. by destruct (endsWithError (fnOut f)).
Qed.

(** C4.  A variadic function is rejected: [doExtractProviderDescriptor]
    returns the error about variadic functions together with the zero
    descriptor. *)
Theorem variadic_function_rejected (f : FuncValue) (w : World) :
  fnVariadic f = true ->
  doExtract (IFunc f) w =
    (Ok (zeroProviderDescriptor, Some (ErrVariadic (LocationFromPC (fnPC f)))), w).
Proof. intros Hv. by rewrite doExtract_func, Hv. Qed.

(** C5.  A value whose dynamic type is not a function type is rejected:
    [doExtractProviderDescriptor] returns the error "expected a Func type"
    together with the zero descriptor. *)
Theorem non_function_rejected (ctr : Iface) (t : Reflect.Type_) (w : World) :
  dynType ctr = Some t ->
  Reflect.Kind_of t <> Reflect.Func ->
  doExtract ctr w = (Ok (zeroProviderDescriptor, Some (ErrExpectedFunc t)), w).
Proof. apply doExtract_not_func. Qed.

(** C6.  The [Inputs] of an accepted function, which is not variadic, have
    one entry per parameter, in the order of declaration, the i-th entry
    with the type of the i-th parameter, and none is optional. *)
Theorem Inputs_are_the_parameters (ctr : Iface) (w w' : World)
    (d : ProviderDescriptor) :
  doExtract ctr w = (Ok (d, None), w') ->
  exists f, ctr = IFunc f /\ fnVariadic f = false /\
    length (Inputs d) = length (fnIn f) /\
    (forall (i : nat) (t : Reflect.Type_),
        fnIn f !! i = Some t -> Inputs d !! i = Some (ProviderInput_of t)) /\
    map pi_Type (Inputs d) = map Some (fnIn f) /\
    Forall (fun p => pi_Optional p = false) (Inputs d).
Proof.
  intros Hext.
  apply doExtract_accepted in Hext as (f & -> & Hv & _ & -> & _).
  exists f. split; [reflexivity |]. split; [exact Hv |]. simpl.
  split; [apply length_map |].
  split.
  { intros i t Hi. change (map ProviderInput_of (fnIn f)) with (ProviderInput_of <$> fnIn f).
    by rewrite list_lookup_fmap, Hi. }
  split.
  { by rewrite <- list_fmap_compose. }
  apply Forall_map, Forall_forall. by intros t _.
Qed.

(** C8.  Extraction has no effect: it leaves the program state as it is, so
    that it records no call of the callable, while a later call of the
    stored [Fn] does record one; and its result does not depend on the
    state, so that two extractions of one callable agree on [Inputs],
    [Outputs], [Location] and [hasError]. *)
Theorem extraction_has_no_effect (ctr : Iface) (w : World) :
  (doExtract ctr w).2 = w /\
  (forall (d : ProviderDescriptor) (e : option GoError),
      (doExtract ctr w).1 = Ok (d, e) ->
      forall w2 : World, exists d2 : ProviderDescriptor,
        (doExtract ctr w2).1 = Ok (d2, e) /\
        Inputs d2 = Inputs d /\ Outputs d2 = Outputs d /\
        Location_ d2 = Location_ d /\ hasError d2 = hasError d) /\
  (forall d : ProviderDescriptor,
      (doExtract ctr w).1 = Ok (d, None) ->
      exists f fn, ctr = IFunc f /\ Fn d = Some fn /\
        forall (values : list Reflect.Value) (w1 : World),
          argsAssignable AssignableTo values (fnIn f) = true ->
          invocations (fn values w1).2
          = invocations w1 ++ [mkInvocation (fnPC f) values]).
Proof.
  split; [apply doExtract_world |]. split.
  - intros d e Hd w2. exists d.
    rewrite (doExtract_outcome _ _ ctr w2 w). auto.
  - intros d Hd.
    destruct (doExtractProviderDescriptor LocationFromPC AssignableTo ctr w)
      as [r w'] eqn:Hrun.
    simpl in Hd. subst r.
    apply doExtract_accepted in Hrun as (f & -> & _ & _ & -> & _).
    eexists f, _. split; [reflexivity |]. split; [reflexivity |].
    intros values w1 Hargs.
    rewrite providerFn_world. by apply Call_invocations.
Qed.

(** C9.  A value that is a [ProviderDescriptor] already goes to the
    expansion of struct arguments as it is: [ExtractProviderDescriptor] is
    then [expandStructArgsProvider], whatever the descriptor looks like, and
    fails only where that fails, although [doExtractProviderDescriptor]
    would reject the value, which is no function. *)
Theorem descriptor_bypasses_validation (d : ProviderDescriptor) (w : World) :
  Extract (IDescriptor d) w = expandStructArgsProvider d w /\
  doExtract (IDescriptor d) w
  = (Ok (zeroProviderDescriptor, Some (ErrExpectedFunc providerDescriptorType)), w).
Proof.
  split; [reflexivity |].
  by apply doExtract_not_func.
Qed.

End ExtractorClaims.

(** ** The claims about the helpers of [util] *)

Section OrderedMapsClaim.

Context {K V : Type} `{Inhabited V}.

Variable eqK : K -> K -> bool.
Variable ltK : K -> K -> bool.
Variable mapsKeys : nat -> list (K * V) -> list K.

Hypothesis mapsKeys_keys :
  forall (order : nat) (m : list (K * V)), mapsKeys order m ≡ₚ m.*1.

Hypothesis keys_ordered : OrderedKeys eqK ltK.

(** C7, as amended.  For keys on which [==] is equality and [<] a total
    order, and a map that holds each key once: [OrderedMapKeys] returns the
    keys of the map in strictly ascending order.  [IterateMapOrdered] calls
    [forEach] on the keys of a prefix of that list, in that order, each with
    the value that the map has for the key when the call is made, which is
    a key-value pair of the map if [forEach] leaves the map as it is; the
    calls return nil, except that the last one returns the error that
    [IterateMapOrdered] returns, if it returns one; if it returns nil, every
    key was visited.  Neither depends on the order in which the runtime
    enumerates the map. *)
Theorem ordered_iteration_is_deterministic (order : nat) (m : list (K * V)) :
  NoDup m.*1 ->
  let keys := OrderedMapKeys ltK mapsKeys order m in
  (StronglySorted (fun a b => ltK a b = true) keys /\
   forall k : K, k ∈ keys <-> exists v : V, (k, v) ∈ m) /\
  (forall (St Err : Type)
          (forEach : K -> V -> list (K * V) * St -> option Err * (list (K * V) * St))
          (s : St),
      let run := IterateMapOrdered eqK ltK mapsKeys order m forEach s in
      exists (n : nat) (trace : list (CallRecord K V Err)),
        IterateMapOrdered eqK ltK mapsKeys order m (recording forEach) (s, [])
        = (run.1, (run.2.1, (run.2.2, trace))) /\
        map call_key trace = take n keys /\
        Forall (fun c => call_value c = mapIndex eqK (call_map c) (call_key c)) trace /\
        (keepsMap forEach -> visitsPairsOf m trace) /\
        match run.1 with
        | None => n = length keys /\ Forall (fun c => call_result c = None) trace
        | Some err =>
            exists pre c, trace = pre ++ [c] /\
              Forall (fun c' => call_result c' = None) pre /\
              call_result c = Some err
        end) /\
  (forall order' : nat,
      OrderedMapKeys ltK mapsKeys order' m = keys /\
      forall (St Err : Type)
             (forEach : K -> V -> list (K * V) * St -> option Err * (list (K * V) * St))
             (s : St),
        IterateMapOrdered eqK ltK mapsKeys order' m forEach s
        = IterateMapOrdered eqK ltK mapsKeys order m forEach s).
Proof.
  intros Hnd keys. split; [| split].
  - split.
    + by apply (OrderedMapKeys_ascending eqK).
    + intros k. by apply OrderedMapKeys_elem_of.
  - intros St Err forEach s run.
    destruct (rangeKeys_recording eqK keys forEach m s [])
      as (n & trace & Hrun & Hkeys & Hvals & Hmaps & Hres).
    exists n, trace. split; [exact Hrun |]. split; [exact Hkeys |].
    split; [exact Hvals |]. split; [| exact Hres].
    intros Hkeep. specialize (Hmaps Hkeep).
    unfold visitsPairsOf. apply Forall_forall. intros c Hc.
    rewrite Forall_forall in Hvals, Hmaps.
    rewrite (Hvals c Hc), (Hmaps c Hc).
    assert (call_key c ∈ keys) as Hin.
    { apply (list_elem_of_fmap_2 call_key) in Hc.
      change (call_key <$> trace) with (map call_key trace) in Hc.
      rewrite Hkeys in Hc. by apply elem_of_take in Hc as (i & Hi & _);
        apply list_elem_of_lookup_2 in Hi. }
    apply (OrderedMapKeys_elem_of ltK mapsKeys mapsKeys_keys) in Hin as [v Hv].
    by rewrite (mapIndex_entry eqK ltK keys_ordered m _ v Hnd Hv).
  - intros order'.
    assert (OrderedMapKeys ltK mapsKeys order' m = keys) as Hsame
      by (by apply (OrderedMapKeys_order_irrelevant eqK)).
    split; [exact Hsame |].
    intros St Err forEach s. unfold IterateMapOrdered. by rewrite Hsame.
Qed.

End OrderedMapsClaim.

(** C10.  [StringFirstLower] and [StringFirstUpper] return the empty string
    as it is; on a string [s] they return a string whose runes after the
    first are those of [s] and whose first rune is the lower-case, or the
    upper-case, mapping of the first rune of [s]; and applying them to their
    own result changes nothing.  The last part rests on the two properties
    of the table of the Go standard library stated as [CaseTableClosed] and
    [CaseTableIdempotent]. *)
Theorem first_letter_functions_idempotent (To : Z -> Z -> Z) (s : list Z) :
  CaseTableClosed To ->
  CaseTableIdempotent To ->
  isString s ->
  StringFirstLower To [] = Ok [] /\
  StringFirstUpper To [] = Ok [] /\
  exists lo up : list Z,
    StringFirstLower To s = Ok lo /\
    StringFirstUpper To s = Ok up /\
    isString lo /\ isString up /\
    drop 1 (runes_of_string lo) = drop 1 (runes_of_string s) /\
    drop 1 (runes_of_string up) = drop 1 (runes_of_string s) /\
    head (runes_of_string lo) = unicode.ToLower To <$> head (runes_of_string s) /\
    head (runes_of_string up) = unicode.ToUpper To <$> head (runes_of_string s) /\
    StringFirstLower To lo = Ok lo /\
    StringFirstUpper To up = Ok up.
Proof.
  intros Hclosed Hidem Hs.
  split; [reflexivity |]. split; [reflexivity |].
  destruct s as [| b t].
  { exists [], []. repeat split; constructor. }
  destruct (runes_of_string_nonempty (b :: t) ltac:(done)) as (r0 & rest & Hr).
  pose proof (runes_of_string_valid _ Hs) as Hvalid.
  rewrite Hr in Hvalid. apply Forall_cons in Hvalid as [Hr0 Hrest].
  destruct (ToLower_valid_idempotent To Hclosed Hidem r0 Hr0) as [Hlo_valid Hlo_idem].
  destruct (ToUpper_valid_idempotent To Hclosed Hidem r0 Hr0) as [Hup_valid Hup_idem].
  assert (runes_of_string (string_of_runes (unicode.ToLower To r0 :: rest))
          = unicode.ToLower To r0 :: rest) as Hlo.
  { rewrite runes_of_string_of_runes. apply map_fixRune_valid. by constructor. }
  assert (runes_of_string (string_of_runes (unicode.ToUpper To r0 :: rest))
          = unicode.ToUpper To r0 :: rest) as Hup.
  { rewrite runes_of_string_of_runes. apply map_fixRune_valid. by constructor. }
  exists (string_of_runes (unicode.ToLower To r0 :: rest)),
         (string_of_runes (unicode.ToUpper To r0 :: rest)).
  split; [by apply StringFirstLower_runes |].
  split; [by apply StringFirstUpper_runes |].
  split; [apply string_of_runes_bytes |].
  split; [apply string_of_runes_bytes |].
  rewrite Hlo, Hup, Hr. simpl.
  split; [reflexivity |]. split; [reflexivity |].
  split; [reflexivity |]. split; [reflexivity |].
  split.
  - rewrite (StringFirstLower_runes To _ _ _ Hlo). by rewrite Hlo_idem.
  - rewrite (StringFirstUpper_runes To _ _ _ Hup). by rewrite Hup_idem.
Qed.

(** * The theorems at concrete inputs *)

Import Examples.

Example describe_extracted :
  doExtractProviderDescriptor locate assignable (IFunc describe) w0
  = (Ok (descriptorOf locate assignable describe, None), w0).
Proof. reflexivity. Qed.

Example describe_Fn_ok :
  providerFn assignable (IFunc describe) true 1 [seven] w0
  = (Ok ([Reflect.mkValue stringType (Reflect.NonZero "#7")], None),
     mkWorld [mkInvocation 4096 [seven]] (<["calls" := 1]> ∅)).
Proof. reflexivity. Qed.

Example describe_Fn_error :
  providerFn assignable (IFunc describe) true 1 [zero] w0
  = (Ok ([], Some (ErrOther "zero")), mkWorld [mkInvocation 4096 [zero]] ∅).
Proof. reflexivity. Qed.

Example describe_Fn_wrong_arguments :
  exists msg, providerFn assignable (IFunc describe) true 1 [] w0 = (Panic msg, w0).
Proof. eexists. reflexivity. Qed.

Lemma misplaced_error_output_rejected_witness :
  doExtractProviderDescriptor locate assignable (IFunc errorFirst) w0
  = (Ok (zeroProviderDescriptor, Some (ErrErrorNotLast "main.other")), w0).
Proof.
  apply (misplaced_error_output_rejected locate assignable errorFirst 0 w0).
  - reflexivity.
  - simpl. lia.
Defined.

Lemma Fn_error_short_circuits_witness :
  exists fn vals errv,
    Fn (descriptorOf locate assignable describe) = Some fn /\
    Call assignable (IFunc describe) [zero] w0
    = (Ok (vals ++ [errv]), called describe [zero] w0 ∅) /\
    Reflect.Type_of errv = errType /\
    exists out err,
      fn [zero] w0 = (Ok (out, err), called describe [zero] w0 ∅) /\
      (err <> None <-> Reflect.IsZero errv = false) /\
      (forall e, err = Some e -> out = [] /\ Interface_error errv = Ok e) /\
      (err = None -> out = vals).
Proof.
  apply (Fn_error_short_circuits locate assignable describe
           (descriptorOf locate assignable describe) w0 w0 [zero] w0
           [Reflect.Zero; Reflect.NonZero "zero"] ∅).
  - reflexivity.
  - reflexivity.
  - reflexivity.
  - reflexivity.
  - reflexivity.
Defined.

Lemma Outputs_are_the_non_error_results_witness :
  exists f, IFunc describe = IFunc f /\
    Outputs (descriptorOf locate assignable describe)
    = map ProviderOutput_of (nonErrorTypes (fnOut f)) /\
    Forall (fun o => po_Type o <> Some errType)
      (Outputs (descriptorOf locate assignable describe)) /\
    (hasError (descriptorOf locate assignable describe) = true
     <-> last (fnOut f) = Some errType) /\
    map Some (fnOut f)
    = map po_Type (Outputs (descriptorOf locate assignable describe))
      ++ (if hasError (descriptorOf locate assignable describe)
          then [Some errType] else []).
Proof.
  apply (Outputs_are_the_non_error_results locate assignable (IFunc describe) w0 w0).
  reflexivity.
Defined.

Lemma variadic_function_rejected_witness :
  doExtractProviderDescriptor locate assignable (IFunc variadicSum) w0
  = (Ok (zeroProviderDescriptor, Some (ErrVariadic "main.other")), w0).
Proof.
  apply (variadic_function_rejected locate assignable variadicSum w0).
  reflexivity.
Defined.

Lemma non_function_rejected_witness :
  doExtractProviderDescriptor locate assignable (IData Reflect.Int "int" (Reflect.NonZero "7")) w0
  = (Ok (zeroProviderDescriptor, Some (ErrExpectedFunc intType)), w0).
Proof.
  apply (non_function_rejected locate assignable
           (IData Reflect.Int "int" (Reflect.NonZero "7")) intType w0).
  - reflexivity.
  - discriminate.
Defined.

Lemma Inputs_are_the_parameters_witness :
  exists f, IFunc describe = IFunc f /\ fnVariadic f = false /\
    length (Inputs (descriptorOf locate assignable describe)) = length (fnIn f) /\
    (forall (i : nat) (t : Reflect.Type_),
        fnIn f !! i = Some t ->
        Inputs (descriptorOf locate assignable describe) !! i
        = Some (ProviderInput_of t)) /\
    map pi_Type (Inputs (descriptorOf locate assignable describe))
    = map Some (fnIn f) /\
    Forall (fun p => pi_Optional p = false)
      (Inputs (descriptorOf locate assignable describe)).
Proof.
  apply (Inputs_are_the_parameters locate assignable (IFunc describe) w0 w0).
  reflexivity.
Defined.

Lemma someOrder_keys {K V : Type} (order : nat) (m : list (K * V)) :
  someOrder order m ≡ₚ m.*1.
Proof.
  unfold someOrder. destruct (Nat.even order); [reflexivity | apply reverse_Permutation].
Qed.

Lemma Z_keys_ordered : OrderedKeys Z.eqb Z.ltb.
Proof.
  split; [apply Z.eqb_eq |]. split; [apply Z.ltb_irrefl |]. split.
  - intros a b c Hab Hbc. apply Z.ltb_lt. apply Z.ltb_lt in Hab, Hbc. lia.
  - intros a b. rewrite !Z.ltb_lt. lia.
Qed.

Lemma names_NoDup : NoDup names.*1.
Proof.
  change (NoDup [3; 1; 2]).
  repeat (apply NoDup_cons_2; [rewrite ?elem_of_cons, elem_of_nil; lia |]).
  apply NoDup_nil_2.
Qed.

Example names_keys :
  OrderedMapKeys Z.ltb someOrder 0 names = [1; 2; 3] /\
  OrderedMapKeys Z.ltb someOrder 1 names = [1; 2; 3].
Proof. split; vm_compute; reflexivity. Qed.

Example names_iterate :
  IterateMapOrdered Z.eqb Z.ltb someOrder 1 names (recording failOnTwo) (0%nat, [])
  = (Some "two",
     (names, (2%nat, [mkCallRecord 1 "one" None names;
                      mkCallRecord 2 "two" (Some "two") names]))).
Proof. vm_compute. reflexivity. Qed.

(** The calls when the callback deletes a key that is still to come, and
    when a key is NaN: in both, [forEach] gets a key with the zero value,
    which is no key-value pair of the map. *)
Example deleteTwo_calls :
  map (fun c => (call_key c, call_value c))
    (IterateMapOrdered Z.eqb Z.ltb someOrder 0 names (recording deleteTwo) (tt, [])).2.2.2
  = [(1, "one"); (2, ""); (3, "three")].
Proof. vm_compute. reflexivity. Qed.

Example nanMap_calls :
  map (fun c => (call_key c, call_value c))
    (IterateMapOrdered floatEq floatLt someOrder 0 nanMap (recording neverFails) (tt, [])).2.2.2
  = [(None, "")].
Proof. vm_compute. reflexivity. Qed.

(** C7, as worded, fails: [forEach] is not always called on key-value pairs
    of the map.  With a callback that deletes the key 2 when it is called on
    the key 1, and with a map whose only key is NaN, [forEach] gets a key
    with the zero value. *)
Lemma IterateMapOrdered_not_on_pairs :
  ~ visitsPairsOf names
      (IterateMapOrdered Z.eqb Z.ltb someOrder 0 names (recording deleteTwo) (tt, [])).2.2.2
  /\
  ~ visitsPairsOf nanMap
      (IterateMapOrdered floatEq floatLt someOrder 0 nanMap (recording neverFails) (tt, [])).2.2.2.
Proof.
  split; intros Hall.
  - apply (Forall_map (fun c => (call_key c, call_value c)) (fun p => p ∈ names)) in Hall.
    rewrite deleteTwo_calls in Hall.
    apply Forall_cons in Hall as [_ Hall]. apply Forall_cons in Hall as [Htwo _].
    apply (bool_decide_pack _) in Htwo. vm_compute in Htwo. exact Htwo.
  - apply (Forall_map (fun c => (call_key c, call_value c)) (fun p => p ∈ nanMap)) in Hall.
    rewrite nanMap_calls in Hall.
    apply Forall_cons in Hall as [Hnan _].
    apply (bool_decide_pack _) in Hnan. vm_compute in Hnan. exact Hnan.
Qed.

Lemma ordered_iteration_is_deterministic_witness :
  StronglySorted (fun a b => (a <? b) = true) (OrderedMapKeys Z.ltb someOrder 1 names) /\
  forall order' : nat,
    OrderedMapKeys Z.ltb someOrder order' names = OrderedMapKeys Z.ltb someOrder 1 names.
Proof.
  pose proof (ordered_iteration_is_deterministic Z.eqb Z.ltb someOrder
                (@someOrder_keys Z string) Z_keys_ordered 1 names names_NoDup)
    as [[Hsorted _] [_ Hsame]].
  split; [exact Hsorted |].
  intros order'. exact (proj1 (Hsame order')).
Defined.

Lemma asciiOnly_closed : CaseTableClosed asciiOnly.
Proof. intros r Hv _. split; exact Hv. Qed.

Lemma asciiOnly_idempotent : CaseTableIdempotent asciiOnly.
Proof.
  intros r _ Hr. unfold unicode.ToLower, unicode.ToUpper, asciiOnly.
  rewrite (proj2 (Z.leb_gt r unicode.MaxASCII)) by lia. split; reflexivity.
Qed.

Lemma bytes_of_isString (s : string) : isString (bytes_of s).
Proof.
  unfold isString, bytes_of. apply Forall_map, Forall_forall. intros a _.
  pose proof (Ascii.N_ascii_bounded a). lia.
Qed.

Example lower_Hello :
  StringFirstLower asciiOnly (bytes_of "Hello") = Ok (bytes_of "hello").
Proof. vm_compute. reflexivity. Qed.

Example upper_hello :
  StringFirstUpper asciiOnly (bytes_of "hello") = Ok (bytes_of "Hello").
Proof. vm_compute. reflexivity. Qed.

(** A byte that is no UTF-8 comes back as the three bytes of [RuneError]. *)
Example lower_invalid :
  StringFirstLower asciiOnly [0xFF; 0x41] = Ok [0xEF; 0xBF; 0xBD; 0x41].
Proof. vm_compute. reflexivity. Qed.

Lemma first_letter_functions_idempotent_witness :
  exists lo up : list Z,
    StringFirstLower asciiOnly (bytes_of "Hello") = Ok lo /\
    StringFirstUpper asciiOnly (bytes_of "Hello") = Ok up /\
    StringFirstLower asciiOnly lo = Ok lo /\
    StringFirstUpper asciiOnly up = Ok up.
Proof.
  destruct (first_letter_functions_idempotent asciiOnly (bytes_of "Hello")
              asciiOnly_closed asciiOnly_idempotent (bytes_of_isString "Hello"))
    as (_ & _ & lo & up & Hlo & Hup & _ & _ & _ & _ & _ & _ & Hlo2 & Hup2).
  exists lo, up. auto.
Defined.

(** * Further properties *)

(** ** The extractor and its [Fn] *)

Lemma errorNotLast_false (outs : list Reflect.Type_) :
  errorNotLast outs = false <->
  forall i : nat, outs !! i = Some errType -> i = (length outs - 1)%nat.
Proof.
  split.
  - intros Hno i Hi.
    destruct (decide (S i < length outs)%nat) as [Hlt | Hge].
    + assert (errorNotLast outs = true) as Hyes
        by (apply errorNotLast_spec; eauto).
      congruence.
    + apply lookup_lt_Some in Hi. lia.
  - intros Hall. destruct (errorNotLast outs) eqn:Hmis; [| reflexivity].
    apply errorNotLast_spec in Hmis as (i & Hi & Hlt).
    apply Hall in Hi. lia.
Qed.

Lemma zip_with_mkValue_types (outs : list Reflect.Type_) (rs : list Reflect.Repr) :
  length rs = length outs ->
  map Reflect.Type_of (zip_with Reflect.mkValue outs rs) = outs.
Proof.
  revert rs. induction outs as [| t outs IH]; intros [| r rs] Hlen;
    simpl in *; try reflexivity; try lia.
  f_equal. apply IH. lia.
Qed.

Section ExtractorMore.

Variable LocationFromPC : Z -> Location.
Variable AssignableTo : Reflect.Type_ -> Reflect.Type_ -> bool.
Variable expandStructArgsProvider :
  ProviderDescriptor -> M (ProviderDescriptor * option GoError).

Local Abbreviation doExtract := (doExtractProviderDescriptor LocationFromPC AssignableTo).
Local Abbreviation Extract :=
  (ExtractProviderDescriptor LocationFromPC AssignableTo expandStructArgsProvider).

(** X1.  A function value is accepted, with a nil error, exactly when it is
    not variadic and each of its results of type [error] is the last one;
    otherwise [doExtractProviderDescriptor] returns an error. *)
Theorem function_accepted_iff (f : FuncValue) (w : World) :
  ((exists d, doExtract (IFunc f) w = (Ok (d, None), w)) <->
   (fnVariadic f = false /\
    forall i : nat, fnOut f !! i = Some errType -> i = (length (fnOut f) - 1)%nat)) /\
  ((exists e, doExtract (IFunc f) w = (Ok (zeroProviderDescriptor, Some e), w)) <->
   (fnVariadic f = true \/
    exists i : nat, fnOut f !! i = Some errType /\ i <> (length (fnOut f) - 1)%nat)).
Proof.
  rewrite doExtract_func, <- errorNotLast_false.
  split; split.
  - intros [d Hd]. destruct (fnVariadic f); [discriminate |].
    destruct (errorNotLast (fnOut f)); [discriminate | done].
  - intros [-> ->]. eauto.
  - intros [e He]. destruct (fnVariadic f); [by left |]. right.
    destruct (errorNotLast (fnOut f)) eqn:Hmis; [| discriminate].
    apply errorNotLast_spec in Hmis as (i & Hi & Hlt). exists i. split; [done | lia].
  - intros [-> | (i & Hi & Hne)]; [eauto |].
    assert (errorNotLast (fnOut f) = true) as ->.
    { apply errorNotLast_spec. exists i. split; [done |].
      apply lookup_lt_Some in Hi. lia. }
    destruct (fnVariadic f); eauto.
Qed.

(** X2.  For an accepted function whose last result is not of type [error],
    called on arguments that fit: [Fn] returns all the results of the call,
    with their declared types, and a nil error. *)
Theorem Fn_without_error_result (f : FuncValue) (d : ProviderDescriptor)
    (w0 w0' : World) (values : list Reflect.Value) (w : World)
    (rs : list Reflect.Repr) (s' : Store) :
  doExtract (IFunc f) w0 = (Ok (d, None), w0') ->
  last (fnOut f) <> Some errType ->
  argsAssignable AssignableTo values (fnIn f) = true ->
  fnBody f values (store w) = (Ok rs, s') ->
  exists fn,
    Fn d = Some fn /\
    fn values w
    = (Ok (zip_with Reflect.mkValue (fnOut f) rs, None), called f values w s').
Proof.
  intros Hext Hlast Hargs Hbody.
  apply doExtract_accepted in Hext as (f' & [= <-] & _ & _ & -> & _).
  eexists. split; [reflexivity |].
  assert (endsWithError (fnOut f) = false) as ->.
  { destruct (endsWithError (fnOut f)) eqn:He; [| reflexivity].
    by apply endsWithError_spec in He. }
  rewrite providerFn_without_error, (Call_returns _ _ _ _ _ _ Hargs Hbody).
  reflexivity.
Qed.

(** X3.  What [Fn] returns on success is what [Outputs] announces: the
    values have the types of [Outputs], in order. *)
Theorem Fn_values_have_the_output_types (f : FuncValue) (d : ProviderDescriptor)
    (w0 w0' : World) (values : list Reflect.Value) (w : World)
    (rs : list Reflect.Repr) (s' : Store)
    (fn : list Reflect.Value -> M (list Reflect.Value * option GoError))
    (out : list Reflect.Value) (w' : World) :
  doExtract (IFunc f) w0 = (Ok (d, None), w0') ->
  argsAssignable AssignableTo values (fnIn f) = true ->
  fnBody f values (store w) = (Ok rs, s') ->
  length rs = length (fnOut f) ->
  Fn d = Some fn ->
  fn values w = (Ok (out, None), w') ->
  map (fun v => Some (Reflect.Type_of v)) out = map po_Type (Outputs d).
Proof.
  intros Hext Hargs Hbody Hlen Hfn Hrun.
  apply doExtract_accepted in Hext as (f' & [= <-] & _ & Hmis & -> & _).
  simpl in Hfn. injection Hfn as <-. simpl Outputs.
  assert (map Reflect.Type_of out = nonErrorTypes (fnOut f)) as Hkey.
  { pose proof (zip_with_mkValue_types (fnOut f) rs Hlen) as Htypes.
    pose proof (nonErrorTypes_split (fnOut f) Hmis) as Hsplit.
    destruct (endsWithError (fnOut f)) eqn:Hend.
    - destruct (providerFn_with_error AssignableTo f values w rs s' Hend Hargs Hbody Hlen)
        as (vals & r & Hres & Hfn).
      rewrite Hfn in Hrun. destruct r as [| e]; [| discriminate].
      injection Hrun as <- _.
      rewrite Hres, map_app in Htypes. simpl in Htypes.
      rewrite Hsplit in Htypes.
      by apply app_inj_tail in Htypes as [? _].
    - rewrite providerFn_without_error, (Call_returns _ _ _ _ _ _ Hargs Hbody) in Hrun.
      injection Hrun as <- _.
      rewrite app_nil_r in Hsplit. by rewrite <- Hsplit. }
  rewrite <- Hkey, !map_map. reflexivity.
Qed.

(** X4.  On a function value, [ExtractProviderDescriptor] returns the error
    of the validation without expanding anything, so whatever the expansion
    is; and for an accepted function it is the expansion of the extracted
    descriptor. *)
Theorem Extract_function (f : FuncValue) (w : World) :
  (forall e, doExtract (IFunc f) w = (Ok (zeroProviderDescriptor, Some e), w) ->
     forall expand : ProviderDescriptor -> M (ProviderDescriptor * option GoError),
       ExtractProviderDescriptor LocationFromPC AssignableTo expand (IFunc f) w
       = (Ok (zeroProviderDescriptor, Some e), w)) /\
  (fnVariadic f = false ->
   (forall i : nat, fnOut f !! i = Some errType -> i = (length (fnOut f) - 1)%nat) ->
   Extract (IFunc f) w
   = expandStructArgsProvider (descriptorOf LocationFromPC AssignableTo f) w).
Proof.
  split.
  - intros e He expand. unfold ExtractProviderDescriptor, bind. by rewrite He.
  - intros Hv Hlast. apply errorNotLast_false in Hlast.
    unfold ExtractProviderDescriptor, bind. by rewrite doExtract_func, Hv, Hlast.
Qed.

(** X5.  A provider that is no function and no [ProviderDescriptor] is
    refused by [ExtractProviderDescriptor] with the error of
    [doExtractProviderDescriptor], without expansion; the nil interface makes
    it panic. *)
Theorem Extract_non_function (w : World) :
  (forall (k : Reflect.DataKind) (name : string) (r : Reflect.Repr),
      Extract (IData k name r) w
      = (Ok (zeroProviderDescriptor, Some (ErrExpectedFunc (Reflect.TData k name))), w)) /\
  (exists msg, Extract INil w = (Panic msg, w)) /\
  (exists msg, doExtract INil w = (Panic msg, w)).
Proof.
  split; [| split].
  - intros k name r. unfold ExtractProviderDescriptor, bind.
    by rewrite (doExtract_not_func _ _ _ (Reflect.TData k name)).
  - eexists. reflexivity.
  - eexists. reflexivity.
Qed.

End ExtractorMore.

(** ** The generated code for the outputs *)

Lemma StringFirstLower_firstLower (To : Z -> Z -> Z) (s : list Z) :
  StringFirstLower To s = Ok (firstLower To s).
Proof.
  destruct s as [| b t]; [reflexivity |].
  destruct (runes_of_string_nonempty (b :: t) ltac:(done)) as (r0 & rest & Hr).
  rewrite (StringFirstLower_runes To _ _ _ Hr). unfold firstLower. by rewrite Hr.
Qed.

Section CodegenFacts.

Context {Container varRef : Type}.

Variable To : Z -> Z -> Z.
Variable createVar : list Z -> Container -> varRef * Container.
Variable emit : varRef -> list Z.
Variable TypeName : Reflect.Type_ -> list Z.

Lemma newVar_createVar (name suffix : list Z) (ctr : Container) :
  newVar To createVar name suffix ctr
  = (Ok (createVar (firstLower To name ++ suffix) ctr).1,
     (createVar (firstLower To name ++ suffix) ctr).2).
Proof.
  unfold newVar. rewrite StringFirstLower_firstLower.
  by destruct (createVar (firstLower To name ++ suffix) ctr).
Qed.

Lemma outputsLoop_shape (outputs : list ProviderOutput) (suffix : list Z)
    (varRefs : list varRef) (cur : option (expr varRef))
    (valueExprs : list (expr varRef)) (ctr : Container) :
  Forall hasName outputs ->
  exists vars exprs ctr',
    outputsLoop To createVar TypeName outputs suffix varRefs cur valueExprs ctr
    = (Ok (varRefs ++ vars, valueExprs ++ exprs), ctr') /\
    length exprs = length outputs /\
    length vars = length (filter (fun o => makesVar o = true) outputs).
Proof.
  intros Hnames. revert varRefs cur valueExprs ctr.
  induction Hnames as [| o outputs Ho _ IH]; intros varRefs cur valueExprs ctr.
  - exists [], [], ctr. simpl. by rewrite !app_nil_r.
  - simpl outputsLoop. rewrite filter_cons.
    destruct (String.eqb_spec (po_structFieldName o) "") as [Hplain | Hfield];
      cbn [negb].
    + rewrite decide_True by (unfold makesVar; by rewrite Hplain).
      destruct (po_Type o) as [t |] eqn:Ht; [| by destruct (Ho Hplain)].
      simpl Name. cbv beta iota. rewrite newVar_createVar.
      destruct (IH (varRefs ++ [(createVar (firstLower To (TypeName t) ++ suffix) ctr).1])
                  None
                  (valueExprs ++ [ExprVar (createVar (firstLower To (TypeName t) ++ suffix) ctr).1])
                  (createVar (firstLower To (TypeName t) ++ suffix) ctr).2)
        as (vars & exprs & ctr' & Hrun & Hexprs & Hvars).
      eexists (_ :: vars), (_ :: exprs), ctr'.
      rewrite Hrun, <- !app_assoc. simpl. split; [reflexivity |]. split; lia.
    + apply String.eqb_neq in Hfield.
      destruct (po_startStructType o) as [st |] eqn:Hst.
      * rewrite decide_True by (unfold makesVar; rewrite Hst; apply orb_true_r).
        rewrite newVar_createVar.
        destruct (IH (varRefs ++ [(createVar (firstLower To (TypeName st) ++ suffix) ctr).1])
                    (Some (ExprVar (createVar (firstLower To (TypeName st) ++ suffix) ctr).1))
                    (valueExprs ++
                       [FieldRef (Some (ExprVar (createVar (firstLower To (TypeName st) ++ suffix) ctr).1))
                          (po_structFieldName o)])
                    (createVar (firstLower To (TypeName st) ++ suffix) ctr).2)
          as (vars & exprs & ctr' & Hrun & Hexprs & Hvars).
        eexists (_ :: vars), (_ :: exprs), ctr'.
        rewrite Hrun, <- !app_assoc. simpl. split; [reflexivity |]. split; lia.
      * rewrite decide_False
          by (unfold makesVar; rewrite Hst, Hfield; discriminate).
        destruct (IH varRefs cur
                    (valueExprs ++ [FieldRef cur (po_structFieldName o)]) ctr)
          as (vars & exprs & ctr' & Hrun & Hexprs & Hvars).
        eexists vars, (_ :: exprs), ctr'.
        rewrite Hrun, <- !app_assoc. simpl. split; [reflexivity |]. split; lia.
Qed.

Lemma varsLoop_rest (vars : list varRef) (varsDef : list Z) :
  varsLoop emit vars false varsDef
  = varsDef ++ concat (map (fun y => bytes_of ", " ++ y) (map emit vars)).
Proof.
  revert varsDef. induction vars as [| v vars IH]; intros varsDef; simpl.
  - by rewrite app_nil_r.
  - rewrite IH, <- !app_assoc. reflexivity.
Qed.

Lemma varsLoop_joinComma (vars : list varRef) :
  varsLoop emit vars true [] = joinComma (map emit vars).
Proof.
  destruct vars as [| v vars]; [reflexivity |].
  simpl. by rewrite varsLoop_rest.
Qed.

(** For outputs that come from result types, in a row. *)
Lemma outputsLoop_plain (ts : list Reflect.Type_) (suffix : list Z)
    (varRefs : list varRef) (cur : option (expr varRef))
    (valueExprs : list (expr varRef)) (ctr : Container) :
  outputsLoop To createVar TypeName (map ProviderOutput_of ts) suffix
    varRefs cur valueExprs ctr
  = let made :=
      createVars createVar
        (map (fun t => firstLower To (TypeName t) ++ suffix) ts) ctr in
    (Ok (varRefs ++ made.1, valueExprs ++ map ExprVar made.1), made.2).
Proof.
  revert varRefs cur valueExprs ctr.
  induction ts as [| t ts IH]; intros varRefs cur valueExprs ctr.
  - simpl. by rewrite !app_nil_r.
  - simpl. rewrite newVar_createVar.
    destruct (createVar (firstLower To (TypeName t) ++ suffix) ctr) as [v ctr1].
    simpl. rewrite IH. simpl.
    destruct (createVars createVar
                (map (fun t0 => firstLower To (TypeName t0) ++ suffix) ts) ctr1)
      as [vs ctr2].
    simpl. by rewrite <- !app_assoc.
Qed.

(** X6.  When every output that is no struct field has a type,
    [codegenOutputs] returns: one expression per output, and a definition
    that lists the variables made, one per output that is no struct field or
    starts a struct, then [", err"] if the provider has an error, then
    [" := "]. *)
Theorem codegenOutputs_shape (p : ProviderDescriptor) (suffix : list Z) (ctr : Container) :
  Forall (fun o => po_structFieldName o = "" -> po_Type o <> None) (Outputs p) ->
  exists (vars : list varRef) (valueExprs : list (expr varRef)) (ctr' : Container),
    codegenOutputs To createVar emit TypeName p suffix ctr
    = (Ok (joinComma (map emit vars)
           ++ (if hasError p then bytes_of ", err" else [])
           ++ bytes_of " := ", valueExprs), ctr') /\
    length valueExprs = length (Outputs p) /\
    length vars
    = length (filter (fun o => po_structFieldName o = ""
                               \/ po_startStructType o <> None) (Outputs p)).
Proof.
  intros Hnames.
  destruct (outputsLoop_shape (Outputs p) suffix [] None [] ctr Hnames)
    as (vars & exprs & ctr' & Hrun & Hexprs & Hvars).
  exists vars, exprs, ctr'. unfold codegenOutputs. rewrite Hrun. simpl.
  rewrite varsLoop_joinComma. split; [| split; [exact Hexprs |]].
  - destruct (hasError p); [by rewrite <- app_assoc | reflexivity].
  - rewrite Hvars. f_equal. apply list_filter_iff. intros o. unfold makesVar.
    rewrite orb_true_iff, String.eqb_eq.
    destruct (po_startStructType o); split; intros [? | ?]; auto; done.
Qed.

End CodegenFacts.

Section CodegenOfExtracted.

Context {Container varRef : Type}.

Variable LocationFromPC : Z -> Location.
Variable AssignableTo : Reflect.Type_ -> Reflect.Type_ -> bool.
Variable To : Z -> Z -> Z.
Variable createVar : list Z -> Container -> varRef * Container.
Variable emit : varRef -> list Z.
Variable TypeName : Reflect.Type_ -> list Z.

(** X7.  For a descriptor that [doExtractProviderDescriptor] returned,
    [codegenOutputs] makes one variable per result that is not the [error],
    in order, named by the name of the result type with its first letter in
    lower case and the suffix; the expressions are these variables, and the
    definition lists them, with [", err"] exactly when the function returns
    an [error]. *)
Theorem codegenOutputs_of_extracted (ctr0 : Iface) (w w' : World)
    (d : ProviderDescriptor) (suffix : list Z) (ctr : Container) :
  doExtractProviderDescriptor LocationFromPC AssignableTo ctr0 w = (Ok (d, None), w') ->
  exists f, ctr0 = IFunc f /\
    let made :=
      createVars createVar
        (map (fun t => firstLower To (TypeName t) ++ suffix)
           (nonErrorTypes (fnOut f))) ctr in
    codegenOutputs To createVar emit TypeName d suffix ctr
    = (Ok (joinComma (map emit made.1)
           ++ (if endsWithError (fnOut f) then bytes_of ", err" else [])
           ++ bytes_of " := ", map ExprVar made.1), made.2).
Proof.
  intros Hext.
  apply doExtract_accepted in Hext as (f & -> & _ & _ & -> & _).
  exists f. split; [reflexivity |].
  unfold codegenOutputs. simpl Outputs. simpl hasError.
  rewrite outputsLoop_plain. simpl.
  rewrite varsLoop_joinComma.
  destruct (endsWithError (fnOut f)); [by rewrite <- app_assoc | reflexivity].
Qed.

End CodegenOfExtracted.

(** ** More on ordered iteration *)

Section OrderedMapsSize.

Context {K V : Type} `{Inhabited V}.

Variable eqK : K -> K -> bool.
Variable ltK : K -> K -> bool.
Variable mapsKeys : nat -> list (K * V) -> list K.

Hypothesis mapsKeys_keys :
  forall (order : nat) (m : list (K * V)), mapsKeys order m ≡ₚ m.*1.

(** X8.  [OrderedMapKeys] returns as many keys as the map has entries; on
    the empty map it returns no key, and [IterateMapOrdered] returns nil
    without a call of [forEach]. *)
Theorem OrderedMapKeys_size (order : nat) (m : list (K * V)) :
  length (OrderedMapKeys ltK mapsKeys order m) = length m /\
  OrderedMapKeys ltK mapsKeys order [] = [] /\
  forall (St Err : Type)
         (forEach : K -> V -> list (K * V) * St -> option Err * (list (K * V) * St))
         (s : St),
    IterateMapOrdered eqK ltK mapsKeys order [] (recording forEach) (s, [])
    = (None, ([], (s, []))).
Proof.
  assert (OrderedMapKeys ltK mapsKeys order [] = []) as Hempty.
  { apply Permutation_nil_r.
    by rewrite (OrderedMapKeys_Permutation ltK mapsKeys mapsKeys_keys). }
  split; [| split].
  - rewrite (OrderedMapKeys_Permutation ltK mapsKeys mapsKeys_keys order m).
    apply length_fmap.
  - exact Hempty.
  - intros St Err forEach s. unfold IterateMapOrdered. by rewrite Hempty.
Qed.

End OrderedMapsSize.

Section OrderedMapsMore.

Context {K V : Type} `{Inhabited V}.

Variable eqK : K -> K -> bool.
Variable ltK : K -> K -> bool.
Variable mapsKeys : nat -> list (K * V) -> list K.

Hypothesis mapsKeys_keys :
  forall (order : nat) (m : list (K * V)), mapsKeys order m ≡ₚ m.*1.

Hypothesis keys_ordered : OrderedKeys eqK ltK.

(** A callback that keeps the map leaves the map of the start. *)
Lemma rangeKeys_keepsMap {S E : Type} (keys : list K)
    (forEach : K -> V -> list (K * V) * S -> option E * (list (K * V) * S))
    (m : list (K * V)) (s : S) :
  keepsMap forEach -> (rangeKeys eqK keys forEach (m, s)).2.1 = m.
Proof.
  intros Hkeep. revert s. induction keys as [| k keys IH]; intros s; [reflexivity |].
  simpl. pose proof (Hkeep k (mapIndex eqK m k) (m, s)) as Hm.
  destruct (forEach k (mapIndex eqK m k) (m, s)) as [[err |] [m1 s1]];
    simpl in Hm; subst m1; [reflexivity | apply IH].
Qed.

(** X9.  For keys on which [==] is equality and [<] a total order, a map
    that holds each key once and a callback that leaves the map as it is:
    when [IterateMapOrdered] returns nil, [forEach] was called once on each
    entry of the map, and on nothing else. *)
Theorem IterateMapOrdered_visits_every_entry (order : nat) (m : list (K * V))
    (St Err : Type)
    (forEach : K -> V -> list (K * V) * St -> option Err * (list (K * V) * St))
    (s : St) :
  NoDup m.*1 ->
  keepsMap forEach ->
  (IterateMapOrdered eqK ltK mapsKeys order m forEach s).1 = None ->
  exists (s' : St) (trace : list (CallRecord K V Err)),
    IterateMapOrdered eqK ltK mapsKeys order m (recording forEach) (s, [])
    = (None, (m, (s', trace))) /\
    map (fun c => (call_key c, call_value c)) trace ≡ₚ m /\
    Forall (fun c => call_result c = None) trace.
Proof.
  intros Hnd Hkeep Hnil.
  destruct (rangeKeys_recording eqK (OrderedMapKeys ltK mapsKeys order m) forEach m s [])
    as (n & trace & Hrun & Hkeys & Hvals & Hmaps & Hres).
  unfold IterateMapOrdered in *. rewrite Hnil in Hrun, Hres.
  rewrite (rangeKeys_keepsMap _ _ _ _ Hkeep) in Hrun.
  destruct Hres as [-> Hall].
  eexists _, trace. split; [exact Hrun |]. split; [| exact Hall].
  rewrite firstn_all in Hkeys. specialize (Hmaps Hkeep).
  etransitivity;
    [| apply (OrderedMapKeys_entries eqK ltK mapsKeys mapsKeys_keys keys_ordered
                order m Hnd)].
  rewrite <- Hkeys, map_map.
  assert (map (fun c => (call_key c, call_value c)) trace
          = map (fun c => (call_key c, mapIndex eqK m (call_key c))) trace) as ->;
    [| reflexivity].
  clear -Hvals Hmaps.
  induction trace as [| c trace IH]; [reflexivity |].
  apply Forall_cons in Hvals as [Hc Hvals]. apply Forall_cons in Hmaps as [Hm Hmaps].
  simpl. rewrite Hc, Hm. f_equal. by apply IH.
Qed.

Context {Err : Type}.

(** A callback without state fails on the whole at the first key of the list
    on which it fails. *)
Lemma rangeKeys_stateless (keys : list K) (m : list (K * V)) (f : K -> V -> option Err) :
  match (rangeKeys eqK keys (stateless f) (m, tt)).1 with
  | Some err =>
      exists pre k post, keys = pre ++ k :: post /\
        Forall (fun k' => f k' (mapIndex eqK m k') = None) pre /\
        f k (mapIndex eqK m k) = Some err
  | None => Forall (fun k => f k (mapIndex eqK m k) = None) keys
  end.
Proof.
  induction keys as [| k keys IH]; [constructor |].
  assert (rangeKeys eqK (k :: keys) (stateless f) (m, tt)
          = match f k (mapIndex eqK m k) with
            | Some err => (Some err, (m, tt))
            | None => rangeKeys eqK keys (stateless f) (m, tt)
            end) as -> by reflexivity.
  destruct (f k (mapIndex eqK m k)) as [err |] eqn:Hk.
  - exists [], k, keys. repeat split; [constructor | exact Hk].
  - destruct (rangeKeys eqK keys (stateless f) (m, tt)).1 as [err |].
    + destruct IH as (pre & k' & post & -> & Hpre & Hk').
      exists (k :: pre), k', post. repeat split; [by constructor | exact Hk'].
    + by constructor.
Qed.

(** X10.  For keys on which [==] is equality and [<] a total order, and a
    map that holds each key once: with a callback that has no state,
    [IterateMapOrdered] returns the error of the callback on the least key
    on which it fails, and nil exactly when it fails on no entry of the
    map. *)
Theorem IterateMapOrdered_least_failing_key (order : nat) (m : list (K * V))
    (f : K -> V -> option Err) :
  NoDup m.*1 ->
  let result := (IterateMapOrdered eqK ltK mapsKeys order m (stateless f) tt).1 in
  (forall err : Err,
      result = Some err <->
      exists (k : K) (v : V), (k, v) ∈ m /\ f k v = Some err /\
        forall (k' : K) (v' : V), (k', v') ∈ m -> ltK k' k = true -> f k' v' = None) /\
  (result = None <-> forall (k : K) (v : V), (k, v) ∈ m -> f k v = None).
Proof.
  intros Hnd result.
  pose proof (rangeKeys_stateless (OrderedMapKeys ltK mapsKeys order m) m f) as Hrun.
  fold (IterateMapOrdered eqK ltK mapsKeys order m (stateless f) tt) in Hrun.
  fold result in Hrun.
  pose proof (OrderedMapKeys_ascending eqK ltK mapsKeys mapsKeys_keys keys_ordered
                order m Hnd) as Hsorted.
  pose proof (OrderedMapKeys_elem_of ltK mapsKeys mapsKeys_keys order m) as Hdom.
  pose proof (mapIndex_entry eqK ltK keys_ordered m) as Htot.
  assert (forall err, result = Some err ->
            exists k v, (k, v) ∈ m /\ f k v = Some err /\
              forall k' v', (k', v') ∈ m -> ltK k' k = true -> f k' v' = None)
    as Hfail.
  { intros err Hr. rewrite Hr in Hrun.
    destruct Hrun as (pre & k & post & Hkeys & Hpre & Hk).
    rewrite Hkeys in Hsorted.
    assert (forall x, x ∈ pre ++ k :: post <-> exists v, (x, v) ∈ m) as Hdom'
      by (intros x; rewrite <- Hkeys; apply Hdom).
    assert (exists v, (k, v) ∈ m) as [v Hv].
    { apply Hdom', elem_of_app. right. apply elem_of_cons. by left. }
    exists k, v. split; [exact Hv |]. split; [by rewrite <- (Htot k v Hnd Hv) |].
    intros k' v' Hv' Hlt.
    assert (k' ∈ pre ++ k :: post) as Hin by (apply Hdom'; eauto).
    apply StronglySorted_app in Hsorted as (_ & _ & Hpost).
    apply StronglySorted_cons in Hpost as [Hpost _].
    apply elem_of_app in Hin as [Hin | Hin].
    - rewrite Forall_forall in Hpre. by rewrite <- (Htot k' v' Hnd Hv'), Hpre.
    - apply elem_of_cons in Hin as [-> | Hin].
      + rewrite (ltK_irrefl eqK ltK keys_ordered) in Hlt. discriminate.
      + rewrite Forall_forall in Hpost. specialize (Hpost k' Hin).
        rewrite (ltK_asym eqK ltK keys_ordered _ _ Hpost) in Hlt. discriminate. }
  assert (result = None -> forall k v, (k, v) ∈ m -> f k v = None) as Hnone.
  { intros Hr k v Hv. rewrite Hr in Hrun. rewrite Forall_forall in Hrun.
    rewrite <- (Htot k v Hnd Hv). apply Hrun, Hdom. eauto. }
  split.
  - intros err. split; [apply Hfail |].
    intros (k & v & Hv & Hk & Hleast).
    destruct result as [err' |] eqn:Hr.
    + destruct (Hfail err' eq_refl) as (k' & v' & Hv' & Hk' & Hleast').
      destruct (ltK_trichotomy eqK ltK keys_ordered k k') as [Hlt | [<- | Hlt]].
      * rewrite (Hleast' k v Hv Hlt) in Hk. discriminate.
      * assert (v = v') as <-
          by (by rewrite <- (Htot k v Hnd Hv), <- (Htot k v' Hnd Hv')).
        congruence.
      * rewrite (Hleast k' v' Hv' Hlt) in Hk'. discriminate.
    + rewrite (Hnone eq_refl k v Hv) in Hk. discriminate.
  - split; [apply Hnone |].
    intros Hall. destruct result as [err |] eqn:Hr; [| reflexivity].
    destruct (Hfail err eq_refl) as (k & v & Hv & Hk & _).
    rewrite (Hall k v Hv) in Hk. discriminate.
Qed.

End OrderedMapsMore.

(** ** More on the first letter of a string *)

Lemma EncodeRune_fixRune (r : Z) : utf8.EncodeRune (fixRune r) = utf8.EncodeRune r.
Proof.
  unfold fixRune. destruct (utf8.ValidRune r) eqn:Hv; [reflexivity |].
  revert Hv.
  unfold utf8.EncodeRune, utf8.ValidRune, utf8.RuneError,
    utf8.surrogateMin, utf8.surrogateMax, utf8.MaxRune.
  cmp; intros Hv; try discriminate; reflexivity.
Qed.

Lemma string_of_runes_fixRune (runes : list Z) :
  string_of_runes (map fixRune runes) = string_of_runes runes.
Proof.
  unfold string_of_runes. induction runes as [| r runes IH]; [reflexivity |].
  simpl. by rewrite EncodeRune_fixRune, IH.
Qed.

(** What has been encoded is well-formed. *)
Lemma string_of_runes_valid (runes : list Z) : validUTF8 (string_of_runes runes).
Proof.
  unfold validUTF8. by rewrite runes_of_string_of_runes, string_of_runes_fixRune.
Qed.

Lemma string_of_runes_cons (r : Z) (runes : list Z) :
  string_of_runes (r :: runes) = utf8.EncodeRune r ++ string_of_runes runes.
Proof. reflexivity. Qed.

(** In a well-formed string the first rune is followed by the encoding of
    the other runes. *)
Lemma validUTF8_rest (b : Z) (t : list Z) :
  validUTF8 (b :: t) ->
  string_of_runes (runes_of_string (drop (utf8.DecodeRune (b :: t)).2 (b :: t)))
  = drop (utf8.DecodeRune (b :: t)).2 (b :: t).
Proof.
  unfold validUTF8. rewrite runes_of_string_cons, string_of_runes_cons.
  set (r0 := (utf8.DecodeRune (b :: t)).1).
  set (rest := runes_of_string (drop (utf8.DecodeRune (b :: t)).2 (b :: t))).
  intros Hs.
  assert ((utf8.DecodeRune (b :: t)).2 = length (utf8.EncodeRune r0)) as Hsize.
  { rewrite <- Hs at 1. by rewrite DecodeRune_EncodeRune. }
  rewrite Hsize. rewrite <- Hs at 1. by rewrite drop_app_length.
Qed.

Lemma DecodeRune_ascii (b : Z) (t : list Z) :
  0 <= b < 128 -> utf8.DecodeRune (b :: t) = (b, 1%nat).
Proof.
  intros Hb. unfold utf8.DecodeRune.
  by rewrite (proj2 (Z.ltb_lt b 128)) by lia.
Qed.

Lemma EncodeRune_ascii (b : Z) : 0 <= b < 128 -> utf8.EncodeRune b = [b].
Proof. intros Hb. unfold utf8.EncodeRune. cmp. reflexivity. Qed.

Lemma ToLower_asciiLower (To : Z -> Z -> Z) (b : Z) :
  0 <= b < 128 -> unicode.ToLower To b = asciiLower b /\ 0 <= asciiLower b < 128.
Proof.
  intros Hb. unfold unicode.ToLower, unicode.MaxASCII, asciiLower.
  cmp; split; reflexivity || lia.
Qed.

Lemma ToUpper_asciiUpper (To : Z -> Z -> Z) (b : Z) :
  0 <= b < 128 -> unicode.ToUpper To b = asciiUpper b /\ 0 <= asciiUpper b < 128.
Proof.
  intros Hb. unfold unicode.ToUpper, unicode.MaxASCII, asciiUpper.
  cmp; split; reflexivity || lia.
Qed.

Lemma ascii_case_compose (b : Z) :
  asciiLower (asciiUpper b) = asciiLower b /\ asciiUpper (asciiLower b) = asciiUpper b.
Proof. unfold asciiLower, asciiUpper. cmp; split; cmp; reflexivity || lia. Qed.

Section FirstLetterMore.

Variable To : Z -> Z -> Z.

(** X11.  Whatever the bytes of the string: [StringFirstLower] and
    [StringFirstUpper] return, and what they return on a string that is not
    empty is well-formed UTF-8 (a byte that is no UTF-8 has become the
    encoding of [RuneError]). *)
Theorem first_letter_result_is_utf8 (s : list Z) :
  exists lo up : list Z,
    StringFirstLower To s = Ok lo /\ StringFirstUpper To s = Ok up /\
    (s <> [] -> validUTF8 lo /\ validUTF8 up) /\
    (s = [] -> lo = [] /\ up = []).
Proof.
  destruct s as [| b t].
  - exists [], []. repeat split; done.
  - destruct (runes_of_string_nonempty (b :: t) ltac:(done)) as (r0 & rest & Hr).
    eexists _, _.
    split; [exact (StringFirstLower_runes To _ _ _ Hr) |].
    split; [exact (StringFirstUpper_runes To _ _ _ Hr) |].
    split; [| done].
    intros _. split; apply string_of_runes_valid.
Qed.

(** X12.  On a well-formed string that is not empty, only the bytes of the
    first rune change: the result is the encoding of the mapped first rune,
    followed by the bytes after the first rune as they were. *)
Theorem first_letter_keeps_the_rest (s : list Z) :
  validUTF8 s ->
  s <> [] ->
  StringFirstLower To s
  = Ok (utf8.EncodeRune (unicode.ToLower To (utf8.DecodeRune s).1)
        ++ drop (utf8.DecodeRune s).2 s) /\
  StringFirstUpper To s
  = Ok (utf8.EncodeRune (unicode.ToUpper To (utf8.DecodeRune s).1)
        ++ drop (utf8.DecodeRune s).2 s).
Proof.
  intros Hvalid Hne. destruct s as [| b t]; [done |].
  pose proof (validUTF8_rest b t Hvalid) as Hrest.
  pose proof (runes_of_string_cons b t) as Hr.
  split.
  - rewrite (StringFirstLower_runes To _ _ _ Hr), string_of_runes_cons.
    by rewrite Hrest.
  - rewrite (StringFirstUpper_runes To _ _ _ Hr), string_of_runes_cons.
    by rewrite Hrest.
Qed.

(** X13.  On a well-formed string that begins with an ASCII character, only
    the first byte changes, and only if it is a letter of the other case:
    [A]..[Z] become [a]..[z] in [StringFirstLower], and the other way round
    in [StringFirstUpper], whatever the table of the other characters. *)
Theorem first_letter_ascii (b : Z) (t : list Z) :
  validUTF8 (b :: t) ->
  0 <= b < 128 ->
  StringFirstLower To (b :: t) = Ok (asciiLower b :: t) /\
  StringFirstUpper To (b :: t) = Ok (asciiUpper b :: t).
Proof.
  intros Hvalid Hb.
  pose proof (validUTF8_rest b t Hvalid) as Hrest.
  pose proof (runes_of_string_cons b t) as Hr.
  rewrite (DecodeRune_ascii b t Hb) in Hrest, Hr. simpl in Hrest, Hr.
  rewrite drop_0 in Hrest, Hr.
  destruct (ToLower_asciiLower To b Hb) as [Hlo Hlo_range].
  destruct (ToUpper_asciiUpper To b Hb) as [Hup Hup_range].
  split.
  - rewrite (StringFirstLower_runes To _ _ _ Hr), string_of_runes_cons.
    by rewrite Hlo, EncodeRune_ascii, Hrest.
  - rewrite (StringFirstUpper_runes To _ _ _ Hr), string_of_runes_cons.
    by rewrite Hup, EncodeRune_ascii, Hrest.
Qed.

(** X14.  On a string that begins with an ASCII character, well-formed or
    not, the two functions undo each other's work: lowering the first letter
    of the raised string gives the lowered string, and the other way
    round. *)
Theorem first_letter_ascii_compose (b : Z) (t : list Z) :
  0 <= b < 128 ->
  exists lo up : list Z,
    StringFirstLower To (b :: t) = Ok lo /\
    StringFirstUpper To (b :: t) = Ok up /\
    StringFirstLower To up = Ok lo /\
    StringFirstUpper To lo = Ok up.
Proof.
  intros Hb.
  pose proof (runes_of_string_cons b t) as Hr.
  rewrite (DecodeRune_ascii b t Hb) in Hr. simpl in Hr. rewrite drop_0 in Hr.
  set (rest := runes_of_string t) in *.
  destruct (ToLower_asciiLower To b Hb) as [Hlo Hlo_range].
  destruct (ToUpper_asciiUpper To b Hb) as [Hup Hup_range].
  destruct (ascii_case_compose b) as [Hlu Hul].
  assert (forall c, 0 <= c < 128 ->
            runes_of_string (string_of_runes (c :: rest)) = c :: map fixRune rest)
    as Hrunes.
  { intros c Hc. rewrite runes_of_string_of_runes. simpl. f_equal.
    apply fixRune_valid.
    unfold utf8.ValidRune, utf8.surrogateMin, utf8.surrogateMax, utf8.MaxRune.
    cmp; reflexivity. }
  exists (string_of_runes (asciiLower b :: rest)),
         (string_of_runes (asciiUpper b :: rest)).
  split; [by rewrite (StringFirstLower_runes To _ _ _ Hr), Hlo |].
  split; [by rewrite (StringFirstUpper_runes To _ _ _ Hr), Hup |].
  split.
  - rewrite (StringFirstLower_runes To _ _ _ (Hrunes _ Hup_range)).
    destruct (ToLower_asciiLower To _ Hup_range) as [-> _].
    rewrite Hlu, !string_of_runes_cons. by rewrite string_of_runes_fixRune.
  - rewrite (StringFirstUpper_runes To _ _ _ (Hrunes _ Hlo_range)).
    destruct (ToUpper_asciiUpper To _ Hlo_range) as [-> _].
    rewrite Hul, !string_of_runes_cons. by rewrite string_of_runes_fixRune.
Qed.

End FirstLetterMore.

(** * The further properties at concrete inputs *)

Example render_extracted :
  doExtractProviderDescriptor locate assignable (IFunc render) w0
  = (Ok (descriptorOf locate assignable render, None), w0).
Proof. reflexivity. Qed.

Lemma Fn_without_error_result_witness :
  exists fn,
    Fn (descriptorOf locate assignable render) = Some fn /\
    fn [seven] w0
    = (Ok ([Reflect.mkValue stringType (Reflect.NonZero "7")], None),
       called render [seven] w0 ∅).
Proof.
  apply (Fn_without_error_result locate assignable render
           (descriptorOf locate assignable render) w0 w0 [seven] w0
           [Reflect.NonZero "7"] ∅).
  - reflexivity.
  - discriminate.
  - reflexivity.
  - reflexivity.
Defined.

Lemma Fn_values_have_the_output_types_witness :
  map (fun v => Some (Reflect.Type_of v))
    [Reflect.mkValue stringType (Reflect.NonZero "#7")]
  = map po_Type (Outputs (descriptorOf locate assignable describe)).
Proof.
  apply (Fn_values_have_the_output_types locate assignable describe
           (descriptorOf locate assignable describe) w0 w0 [seven] w0
           [Reflect.NonZero "#7"; Reflect.Zero] (<["calls" := 1]> ∅)
           (providerFn assignable (IFunc describe) true 1)
           [Reflect.mkValue stringType (Reflect.NonZero "#7")]
           (mkWorld [mkInvocation 4096 [seven]] (<["calls" := 1]> ∅))).
  - reflexivity.
  - reflexivity.
  - reflexivity.
  - reflexivity.
  - reflexivity.
  - reflexivity.
Defined.

Example expanded_codegen :
  codegenOutputs asciiOnly countingVar (fun v => v) typeName expanded (bytes_of "1") 0%nat
  = (Ok (bytes_of "result1, int1, err := ",
         [FieldRef (Some (ExprVar (bytes_of "result1"))) "A";
          FieldRef (Some (ExprVar (bytes_of "result1"))) "B";
          ExprVar (bytes_of "int1")]), 2%nat).
Proof. vm_compute. reflexivity. Qed.

(** Nothing but an [error]: the definition begins with the comma. *)
Example only_error_codegen :
  codegenOutputs asciiOnly countingVar (fun v => v) typeName
    {| Inputs := []; Outputs := []; Fn := None; Location_ := ""; hasError := true |}
    (bytes_of "1") 0%nat
  = (Ok (bytes_of ", err := ", []), 0%nat).
Proof. vm_compute. reflexivity. Qed.

Lemma codegenOutputs_shape_witness :
  exists (vars : list (list Z)) (valueExprs : list (expr (list Z))) (made : nat),
    codegenOutputs asciiOnly countingVar (fun v => v) typeName expanded (bytes_of "1") 0%nat
    = (Ok (joinComma (map (fun v => v) vars)
           ++ (if hasError expanded then bytes_of ", err" else [])
           ++ bytes_of " := ", valueExprs), made) /\
    length valueExprs = length (Outputs expanded) /\
    length vars
    = length (filter (fun o => po_structFieldName o = ""
                               \/ po_startStructType o <> None) (Outputs expanded)).
Proof.
  apply (codegenOutputs_shape asciiOnly countingVar (fun v => v) typeName
           expanded (bytes_of "1") 0%nat).
  repeat constructor; simpl; discriminate.
Defined.

Lemma codegenOutputs_of_extracted_witness :
  exists f, IFunc describe = IFunc f /\
    let made :=
      createVars countingVar
        (map (fun t => firstLower asciiOnly (typeName t) ++ bytes_of "1")
           (nonErrorTypes (fnOut f))) 0%nat in
    codegenOutputs asciiOnly countingVar (fun v => v) typeName
      (descriptorOf locate assignable describe) (bytes_of "1") 0%nat
    = (Ok (joinComma (map (fun v => v) made.1)
           ++ (if endsWithError (fnOut f) then bytes_of ", err" else [])
           ++ bytes_of " := ", map ExprVar made.1), made.2).
Proof.
  apply (codegenOutputs_of_extracted locate assignable asciiOnly countingVar
           (fun v => v) typeName (IFunc describe) w0 w0).
  reflexivity.
Defined.

Lemma OrderedMapKeys_size_witness :
  length (OrderedMapKeys Z.ltb someOrder 1 names) = length names.
Proof.
  exact (proj1 (OrderedMapKeys_size Z.eqb Z.ltb someOrder (@someOrder_keys Z string)
                  1 names)).
Defined.

Lemma countOnly_keepsMap : keepsMap countOnly.
Proof. intros k v st. reflexivity. Qed.

Lemma IterateMapOrdered_visits_every_entry_witness :
  exists (count : nat) (trace : list (CallRecord Z string string)),
    IterateMapOrdered Z.eqb Z.ltb someOrder 1 names (recording countOnly) (0%nat, [])
    = (None, (names, (count, trace))) /\
    map (fun c => (call_key c, call_value c)) trace ≡ₚ names /\
    Forall (fun c => call_result c = None) trace.
Proof.
  apply (IterateMapOrdered_visits_every_entry Z.eqb Z.ltb someOrder
           (@someOrder_keys Z string) Z_keys_ordered 1 names
           nat string countOnly 0%nat names_NoDup countOnly_keepsMap).
  vm_compute. reflexivity.
Defined.

Example names_least_failing_key :
  (IterateMapOrdered Z.eqb Z.ltb someOrder 1 names (stateless failAboveOne) tt).1
  = Some "two".
Proof. vm_compute. reflexivity. Qed.

Lemma IterateMapOrdered_least_failing_key_witness :
  exists (k : Z) (v : string),
    (k, v) ∈ names /\ failAboveOne k v = Some "two" /\
    forall (k' : Z) (v' : string),
      (k', v') ∈ names -> (k' <? k) = true -> failAboveOne k' v' = None.
Proof.
  apply (proj1 (IterateMapOrdered_least_failing_key Z.eqb Z.ltb someOrder
                  (@someOrder_keys Z string) Z_keys_ordered 1 names failAboveOne
                  names_NoDup) "two").
  vm_compute. reflexivity.
Defined.

(** ["Él"]: the first rune takes two bytes. *)
Lemma first_letter_keeps_the_rest_witness :
  StringFirstLower asciiOnly [0xC3; 0x89; 0x6C] = Ok [0xC3; 0x89; 0x6C] /\
  StringFirstUpper asciiOnly [0xC3; 0x89; 0x6C] = Ok [0xC3; 0x89; 0x6C].
Proof.
  apply (first_letter_keeps_the_rest asciiOnly [0xC3; 0x89; 0x6C]).
  - vm_compute. reflexivity.
  - discriminate.
Defined.

Lemma first_letter_ascii_witness :
  StringFirstLower asciiOnly (bytes_of "Hello") = Ok (bytes_of "hello") /\
  StringFirstUpper asciiOnly (bytes_of "Hello") = Ok (bytes_of "Hello").
Proof.
  apply (first_letter_ascii asciiOnly 72 (bytes_of "ello")).
  - vm_compute. reflexivity.
  - lia.
Defined.

(** ["H"] followed by a byte that is no UTF-8. *)
Lemma first_letter_ascii_compose_witness :
  exists lo up : list Z,
    StringFirstLower asciiOnly [72; 0xFF] = Ok lo /\
    StringFirstUpper asciiOnly [72; 0xFF] = Ok up /\
    StringFirstLower asciiOnly up = Ok lo /\
    StringFirstUpper asciiOnly lo = Ok up.
Proof.
  apply (first_letter_ascii_compose asciiOnly 72 [0xFF]). lia.
Defined.
